(** * xk6-vechain: the funding distributor and the deduplicated block poller

    A shallow embedding of [Client.Fund] and [Client.pollForBlocks]
    (vechain.go).  Goroutines are modelled by explicit interleavings: a
    schedule lists which goroutine moves next and what the chain (or the
    clock tick) answers, and every statement about concurrent behaviour
    quantifies over all schedules.  [NewClient], [newOptionsFrom],
    [Accounts], [reportMetricsFromStats] and the package [random] follow
    at the end of Part I. *)

From Stdlib Require Import ZArith Ascii Floats Uint63.
From stdpp Require Import gmap strings list sorting pretty.

Open Scope Z_scope.

(* ===================================================================== *)
(** * Part I: definitions                                                 *)
(* ===================================================================== *)

(** ** Go values *)

(** A Go [error] is represented by its message; [nil] is [None]. *)
Definition error := string.

Inductive panic := IntegerDivideByZero | IndexOutOfRange.

(** What a piece of Go code can do: fall through with a value, return an
    error to its caller, or panic. *)
Inductive outcome (A : Type) :=
| Ok (a : A)
| Err (e : error)
| Panic (p : panic).
Arguments Ok {A} a.
Arguments Err {A} e.
Arguments Panic {A} p.

(** [int] is 64 bits wide; the lengths and loop indices of the code stay
    far below [2^63], so they are unbounded integers here. *)

(** [l[i]] for an [int] index: out of range is a run-time panic. *)
Definition index {A} (l : list A) (i : Z) : option A :=
  if i <? 0 then None else l !! Z.to_nat i.

(** [l[i:e]] for [0 <= i <= e <= len(l)]. *)
Definition slice {A} (l : list A) (i e : nat) : list A :=
  take (e - i) (drop i l).

(** [int64(x)]: conversion of an integer to a signed 64-bit one. *)
Definition int64 (z : Z) : Z := (z + 2 ^ 63) mod 2 ^ 64 - 2 ^ 63.

(** ** Accounts and clauses *)

(** [common.Address], 20 bytes, as a number. *)
Definition common_Address := Z.

(** [txmanager.PKManager]: only its address matters here. *)
Record PKManager := { Address : common_Address }.

(** [transaction.Clause] *)
Record Clause := {
  To : option common_Address;
  Value : Z;
  Data : list Byte.byte
}.

Definition NewClause (to : common_Address) : Clause :=
  {| To := Some to; Value := 0; Data := [] |}.

Definition WithValue (value : Z) (c : Clause) : Clause :=
  {| To := To c; Value := value; Data := Data c |}.

(** Library functions the code calls and whose bodies are outside the
    repository.
    - [SetString s base]: the pair of the value left in a fresh [big.Int]
      after [SetString(s, base)] and the success flag it returns;
    - [AsClause method to value]: [vtho.AsClause(method, to, value)], a
      clause calling the VTHO contract, or an error;
    - [Duration_String d]: [time.Duration(d).String()]. *)
Class Externals := {
  SetString : string → Z → Z * bool;
  AsClause : string → common_Address → Z → Clause + error;
  Duration_String : Z → string
}.

(** The fields of [Client] that [Fund] and [pollForBlocks] read. *)
Record Client := {
  opts_URL : string;
  managers : list PKManager
}.

(** ** Fund: building the clauses (lines 66-88) *)

Section Fund_clauses.
Context `{!Externals}.

(** The body of the loop over the recipients, for recipient index [i]. *)
Definition Fund_body (start : Z) (c : Client) (amount : string) (i : Z)
    (clauses : gmap Z (list Clause)) : outcome (gmap Z (list Clause)) :=
  match index (managers c) i with
  | None => Panic IndexOutOfRange
  | Some m =>
    let fundee := Address m in
    if start =? 0 then Panic IntegerDivideByZero else
    let funderIndex := Z.rem i start in
    let value := fst (SetString amount 16) in
    let vetClause := WithValue value (NewClause fundee) in
    match AsClause "transfer" fundee value with
    | inr err => Err err
    | inl vthoClause =>
      let funderClauses := default [] (clauses !! funderIndex) in
      Ok (<[funderIndex := funderClauses ++ [vetClause; vthoClause]]> clauses)
    end
  end.

(** [for i := start; i < len(c.managers); i++ { ... }], over the indices
    still to visit. *)
Fixpoint Fund_loop (start : Z) (c : Client) (amount : string) (todo : list Z)
    (clauses : gmap Z (list Clause)) : outcome (gmap Z (list Clause)) :=
  match todo with
  | [] => Ok clauses
  | i :: todo =>
    match Fund_body start c amount i clauses with
    | Ok clauses => Fund_loop start c amount todo clauses
    | Err e => Err e
    | Panic p => Panic p
    end
  end.

(** The indices [start, start+1, ..., len-1] the loop visits. *)
Definition recipients (start : Z) (c : Client) : list Z :=
  seqZ start (Z.of_nat (length (managers c)) - start).

Definition Fund_clauses (start : Z) (c : Client) (amount : string)
    : outcome (gmap Z (list Clause)) :=
  Fund_loop start c amount (recipients start c) ∅.
End Fund_clauses.

(** ** Fund: the workers (lines 95-119) *)

(** Where a worker goroutine stands: about to call [Send] on the batch at
    [w_i], blocked in [tx.Wait()] for that batch, or returned. *)
Inductive pc := AtSend | AtWait | ReturnedOk | ReturnedErr.

Record worker := {
  w_manager : PKManager;
  w_clauses : list Clause;
  w_i : nat;
  w_pc : pc
}.

(** What the chain has seen: a batch accepted by [Send], a batch whose
    transaction [Wait] reported as included. *)
Inductive chain_event :=
| Submitted (funder : Z) (caller : common_Address) (batch : list Clause)
| Confirmed (funder : Z) (caller : common_Address) (batch : list Clause).

(** The answer of the chain to a [Send] or a [Wait]. *)
Inductive reply := Succeeds | Fails (e : error).

(** [end := i + 100; if end > len(clauses) { end = len(clauses) }] *)
Definition batch_end (clauses : list Clause) (i : nat) : nat :=
  let e := (i + 100)%nat in
  if (length clauses <? e)%nat then length clauses else e.

(** [clauses[i:end]] *)
Definition batch_at (clauses : list Clause) (i : nat) : list Clause :=
  slice clauses i (batch_end clauses i).

(** The loop test [i < len(clauses)]. *)
Definition loop_head (clauses : list Clause) (i : nat) : pc :=
  if (i <? length clauses)%nat then AtSend else ReturnedOk.

Definition set_pc (p : pc) (w : worker) : worker :=
  {| w_manager := w_manager w; w_clauses := w_clauses w; w_i := w_i w; w_pc := p |}.

Definition next_batch (w : worker) : worker :=
  let i := (w_i w + 100)%nat in
  {| w_manager := w_manager w; w_clauses := w_clauses w; w_i := i;
     w_pc := loop_head (w_clauses w) i |}.

(** One move of the worker of funder [f]: the new worker, what the chain
    records, and the error written to [clauseErr], if any. *)
Definition worker_step (f : Z) (r : reply) (w : worker)
    : worker * list chain_event * option error :=
  let batch := batch_at (w_clauses w) (w_i w) in
  let caller := Address (w_manager w) in
  match w_pc w, r with
  | AtSend, Succeeds => (set_pc AtWait w, [Submitted f caller batch], None)
  | AtSend, Fails e => (set_pc ReturnedErr w, [], Some e)
  | AtWait, Succeeds => (next_batch w, [Confirmed f caller batch], None)
  | AtWait, Fails e => (set_pc ReturnedErr w, [], Some e)
  | ReturnedOk, _ | ReturnedErr, _ => (w, [], None)
  end.

(** The state the goroutines share while [Fund] waits for them: the
    workers, the error slot every failing worker writes (the writes are
    not synchronised in the source; here each is one step, and the last
    one stays), and what the chain has recorded. *)
Record fund_state := {
  workers : gmap Z worker;
  clauseErr : option error;
  chain : list chain_event
}.

(** The worker of funder [mv.1] moves, the chain answering [mv.2]; a
    funder without worker, or whose worker has returned, does nothing. *)
Definition step (st : fund_state) (mv : Z * reply) : fund_state :=
  match workers st !! mv.1 with
  | None => st
  | Some w =>
    let '(w', evs, err) := worker_step mv.1 mv.2 w in
    {| workers := <[mv.1 := w']> (workers st);
       clauseErr := match err with Some e => Some e | None => clauseErr st end;
       chain := chain st ++ evs |}
  end.

(** An interleaving of the workers: the moves of [sched], in order. *)
Definition run (sched : list (Z * reply)) (st : fund_state) : fund_state :=
  foldl step st sched.

Definition returned (w : worker) : bool :=
  match w_pc w with ReturnedOk | ReturnedErr => true | _ => false end.

(** [wg.Wait()] returns once every worker has returned. *)
Definition all_returned (st : fund_state) : bool :=
  forallb (λ kw, returned kw.2) (map_to_list (workers st)).

(** [go func(...){...}(manager, clauses)] for the entry of funder [f]. *)
Definition spawn (m : PKManager) (clauses : list Clause) : worker :=
  {| w_manager := m; w_clauses := clauses; w_i := 0; w_pc := loop_head clauses 0 |}.

(** [for i, clauses := range clauses { manager := c.managers[i]; go ... }] *)
Definition launch (c : Client) (clauses : gmap Z (list Clause))
    : outcome (gmap Z worker) :=
  let ws := map_imap (λ f cl, (λ m, spawn m cl) <$> index (managers c) f) clauses in
  if decide (dom ws = dom clauses) then Ok ws else Panic IndexOutOfRange.

Definition start_state (ws : gmap Z worker) : fund_state :=
  {| workers := ws; clauseErr := None; chain := [] |}.

(** The batches of funder [f] that [Send] accepted, in order. *)
Definition submitted_by (f : Z) (ch : list chain_event) : list (list Clause) :=
  omap (λ ev, match ev with
              | Submitted g _ b => if decide (g = f) then Some b else None
              | Confirmed _ _ _ => None
              end) ch.

(** The batches of funder [f] that were confirmed, in order. *)
Definition confirmed_by (f : Z) (ch : list chain_event) : list (list Clause) :=
  omap (λ ev, match ev with
              | Confirmed g _ b => if decide (g = f) then Some b else None
              | Submitted _ _ _ => None
              end) ch.

(** ** Fund *)

(** How a call of [Fund] ends under a given schedule: it returns, it
    panics, or the schedule stops while [wg.Wait()] is still blocked. *)
Inductive fund_end :=
| Returns (e : option error)
| Panics (p : panic)
| Blocked.

Section Fund.
Context `{!Externals}.

(** Lines 61-97: validation, clause construction, worker launch.
    ([builtins.VTHO.Load] only binds the contract; it has no effect.) *)
Definition Fund_prepare (c : Client) (start : Z) (amount : string)
    : outcome (gmap Z worker) :=
  if Z.of_nat (length (managers c)) <? start then
    Err "start index is greater than the number of accounts"
  else
    match Fund_clauses start c amount with
    | Ok clauses => launch c clauses
    | Err e => Err e
    | Panic p => Panic p
    end.

(** [Fund]: its end and everything the chain has recorded. *)
Definition Fund (c : Client) (start : Z) (amount : string)
    (sched : list (Z * reply)) : fund_end * list chain_event :=
  match Fund_prepare c start amount with
  | Err e => (Returns (Some e), [])
  | Panic p => (Panics p, [])
  | Ok ws =>
    let st := run sched (start_state ws) in
    if all_returned st then (Returns (clauseErr st), chain st)
    else (Blocked, chain st)
  end.
End Fund.

(** ** Numbers and durations of the poller *)

(** [float64(x)] for [0 <= x < 2^63]. *)
Definition float64_of_nonneg (z : Z) : float :=
  PrimFloat.of_uint63 (Uint63.of_Z z).

(** [float64(x)] for a signed 64-bit [x]. *)
Definition float64_of_int64 (z : Z) : float :=
  if z =? - 2 ^ 63 then (- (float64_of_nonneg (2 ^ 62) * 2))%float
  else if z <? 0 then (- float64_of_nonneg (- z))%float
  else float64_of_nonneg z.

(** [float64(x)] for an unsigned 64-bit [x]; above [2^63] the low bit is
    kept sticky while halving, so that the rounding is the one of [x]. *)
Definition float64_of_uint64 (n : N) : float :=
  let z := Z.of_N n in
  if z <? 2 ^ 63 then float64_of_nonneg z
  else (float64_of_nonneg (Z.lor (Z.shiftr z 1) (Z.land z 1)) * 2)%float.

(** [time.Duration]: signed 64-bit nanoseconds. *)
Definition Second : Z := 1000000000.
Definition Millisecond : Z := 1000000.
Definition maxDuration : Z := 2 ^ 63 - 1.
Definition minDuration : Z := - 2 ^ 63.

(** [time.Unix(t, 0).Sub(time.Unix(u, 0))]: the difference in nanoseconds,
    held at [maxDuration] or [minDuration] when it does not fit. *)
Definition Unix_Sub (t u : Z) : Z :=
  let d := (t - u) * Second in
  if maxDuration <? d then maxDuration
  else if d <? minDuration then minDuration
  else d.

(** [d.Seconds()] *)
Definition Seconds (d : Z) : float :=
  (float64_of_int64 (Z.quot d Second)
   + float64_of_int64 (Z.rem d Second) / 1000000000)%float.

(** [d.Milliseconds()] *)
Definition Milliseconds (d : Z) : Z := Z.quot d Millisecond.

(** [strconv.FormatUint(n, 10)] and [strconv.Itoa(i)] *)
Definition FormatUint (n : N) : string := pretty n.
Definition Itoa (i : Z) : string := pretty i.

(** ** Blocks and samples *)

(** The fields of the head block that [Blocks.Best()] returns. *)
Record Block := {
  Number : N;
  Timestamp : N;
  GasUsed : N;
  GasLimit : N;
  Transactions : list string
}.

(** The metrics of [registerMetrics], by their registered names. *)
Inductive Metric :=
| vechain_req_duration
| vechain_time_to_mine
| vechain_block
| vechain_gas_used
| vechain_tps
| vechain_block_time.

(** [metrics.Sample]; the root tag set of a fresh registry is empty, so a
    tag set is the map of the tags added to it. *)
Record Sample := {
  Sample_Metric : Metric;
  Sample_Tags : gmap string string;
  Sample_Value : float;
  Sample_Time : Z
}.

(** A group handed to [metrics.PushIfNotDone].  [endpoint] and
    [block_number] are bookkeeping of the model: they name the poller's
    endpoint and the block the group was computed for. *)
Record ConnectedSamples := {
  endpoint : string;
  block_number : N;
  Samples : list Sample
}.

(** What one tick of the 500 ms ticker finds: the answer of
    [Blocks.Best()] ([None] for an error), whether [c.vu], [c.vu.State()]
    and the root tag set are all non-nil, whether the VU context is
    done, and the successive readings of [time.Now()]. *)
Record tick_input := {
  best : option Block;
  vu_ready : bool;
  ctx_done : bool;
  now : nat → Z
}.

(** What all pollers of the process share: the [blocks] registry
    ([sync.Map] used as a set of keys) and the samples channel. *)
Record shared := {
  blocks : gset string;
  sink : list ConnectedSamples
}.

Section pollForBlocks.
Context `{!Externals}.

(** Line 145 *)
Definition blockTimestampDiff (prev block : Block) : Z :=
  Unix_Sub (int64 (Z.of_N (Timestamp block))) (int64 (Z.of_N (Timestamp prev))).

(** Line 146 *)
Definition tps (prev block : Block) : float :=
  (float64_of_int64 (Z.of_nat (length (Transactions block)))
   / Seconds (blockTimestampDiff prev block))%float.

(** Lines 158-199 *)
Definition block_samples (prev block : Block) (now : nat → Z) : list Sample :=
  let diff := blockTimestampDiff prev block in
  [ {| Sample_Metric := vechain_block;
       Sample_Tags := list_to_map
         [ ("transactions", Itoa (Z.of_nat (length (Transactions block))));
           ("gas_used", Itoa (int64 (Z.of_N (GasUsed block))));
           ("gas_limit", Itoa (int64 (Z.of_N (GasLimit block)))) ];
       Sample_Value := float64_of_uint64 (Number block);
       Sample_Time := now 0%nat |};
    {| Sample_Metric := vechain_gas_used;
       Sample_Tags := list_to_map
         [ ("block", Itoa (int64 (Z.of_N (Number block)))) ];
       Sample_Value := float64_of_uint64 (GasUsed block);
       Sample_Time := now 1%nat |};
    {| Sample_Metric := vechain_tps;
       Sample_Tags := ∅;
       Sample_Value := tps prev block;
       Sample_Time := now 2%nat |};
    {| Sample_Metric := vechain_block_time;
       Sample_Tags := list_to_map
         [ ("block_timestamp_diff", Duration_String diff) ];
       Sample_Value := float64_of_int64 (Milliseconds diff);
       Sample_Time := now 3%nat |} ].

(** The registry key of line 152. *)
Definition dedup_key (c : Client) (block : Block) : string :=
  opts_URL c +:+ FormatUint (Number block).

(** [metrics.PushIfNotDone]: nothing is sent once the context is done. *)
Definition PushIfNotDone (done : bool) (output : list ConnectedSamples)
    (group : ConnectedSamples) : list ConnectedSamples :=
  if done then output else output ++ [group].

(** The body of the ticker loop (lines 139-202): the new stored
    previous block and the new shared state. *)
Definition poll_tick (c : Client) (inp : tick_input) (prev : Block)
    (sh : shared) : Block * shared :=
  match best inp with
  | None => (prev, sh)
  | Some block =>
    if (Number prev <? Number block)%N then
      if vu_ready inp then
        let key := dedup_key c block in
        if decide (key ∈ blocks sh) then (block, sh)
        else
          (block,
           {| blocks := {[key]} ∪ blocks sh;
              sink := PushIfNotDone (ctx_done inp) (sink sh)
                        {| endpoint := opts_URL c;
                           block_number := Number block;
                           Samples := block_samples prev block (now inp) |} |})
      else (block, sh)
    else (prev, sh)
  end.

(** A poller goroutine: it has left after a failed first read, or it
    loops with its stored previous block. *)
Inductive poller :=
| Exited
| Polling (c : Client) (prev : Block).

(** [pollForBlocks], lines 133-136: the first read; when it succeeds
    the goroutine goes on with one [poll_tick] per tick of the ticker,
    for as long as the process lives. *)
Definition pollForBlocks (c : Client) (first : option Block) : poller :=
  match first with
  | None => Exited
  | Some prev => Polling c prev
  end.

(** The pollers of a process and what they share. *)
Record poll_state := {
  pollers : list poller;
  common : shared
}.

(** Poller [mv.1] takes the tick [mv.2].  A tick touches what is shared
    twice, by [LoadOrStore] and then by the channel send, both atomic,
    and nothing else of it is visible to the other pollers: taking the
    tick as one step loses no behaviour. *)
Definition poll_step (st : poll_state) (mv : nat * tick_input) : poll_state :=
  match pollers st !! mv.1 with
  | Some (Polling c prev) =>
    let '(prev', sh') := poll_tick c mv.2 prev (common st) in
    {| pollers := <[mv.1 := Polling c prev']> (pollers st); common := sh' |}
  | _ => st
  end.

Definition poll_run (sched : list (nat * tick_input)) (st : poll_state) : poll_state :=
  foldl poll_step st sched.

(** One poller alone, over its successive ticks. *)
Fixpoint poll_ticks (c : Client) (inps : list tick_input) (prev : Block)
    (sh : shared) : Block * shared :=
  match inps with
  | [] => (prev, sh)
  | inp :: inps =>
    let '(prev', sh') := poll_tick c inp prev sh in
    poll_ticks c inps prev' sh'
  end.

(** The blocks one poller stores over its ticks, in order: a block is
    listed when the tick replaced the stored block by it. *)
Fixpoint stored (c : Client) (inps : list tick_input) (prev : Block)
    (sh : shared) : list Block :=
  match inps with
  | [] => []
  | inp :: inps =>
    let '(prev', sh') := poll_tick c inp prev sh in
    (if (Number prev <? Number prev')%N then [prev'] else [])
    ++ stored c inps prev' sh'
  end.

(** The groups in the channel for one endpoint and block number. *)
Definition groups_for (url : string) (n : N) (out : list ConnectedSamples)
    : list ConnectedSamples :=
  filter (λ g, endpoint g = url ∧ block_number g = n) out.
End pollForBlocks.


(** ** An instance of the library functions

    The theorems below hold for every [Externals].  This instance follows
    the documented behaviour of the three library functions and serves to
    evaluate the code on concrete inputs. *)

(** The value of a base-16 digit, in either case. *)
Definition hex_digit (a : ascii) : option Z :=
  let n := Z.of_N (N_of_ascii a) in
  if (48 <=? n) && (n <=? 57) then Some (n - 48)
  else if (97 <=? n) && (n <=? 102) then Some (n - 87)
  else if (65 <=? n) && (n <=? 70) then Some (n - 55)
  else None.

(** Scans the longest prefix of digits: value, number of digits, rest. *)
Fixpoint scan_hex (s : string) (acc : Z) (count : nat) : Z * nat * string :=
  match s with
  | EmptyString => (acc, count, EmptyString)
  | String a rest =>
    match hex_digit a with
    | Some d => scan_hex rest (acc * 16 + d) (S count)
    | None => (acc, count, s)
    end
  end.

(** [SetString(s, 16)] on a fresh [big.Int]: an optional sign, then
    digits up to the end of the string.  When something else follows the
    digits the call fails and the digits read so far stay in the value. *)
Definition big_SetString (s : string) (base : Z) : Z * bool :=
  let '(neg, body) :=
    match s with
    | String "+" r => (false, r)
    | String "-" r => (true, r)
    | _ => (false, s)
    end in
  let '(v, count, rest) := scan_hex body 0 0 in
  match count with
  | O => (0, false)
  | S _ => (if neg : bool then - v else v, bool_decide (rest = EmptyString))
  end.

(** The [len] low bytes of [z], most significant first. *)
Fixpoint be_bytes (len : nat) (z : Z) : list Byte.byte :=
  match len with
  | O => []
  | S len =>
    be_bytes len (z / 256) ++ [default Byte.x00 (Byte.of_N (Z.to_N (z mod 256)))]
  end.

(** The address of the VTHO contract. *)
Definition VTHO_address : common_Address := 0x0000000000000000000000000000456E65726779.

(** [transfer(address,uint256)]: the selector, then both arguments
    padded to 32 bytes. *)
Definition vtho_AsClause (method : string) (to : common_Address) (value : Z)
    : Clause + error :=
  if bool_decide (method = "transfer") then
    inl {| To := Some VTHO_address; Value := 0;
           Data := [Byte.xa9; Byte.x05; Byte.x9c; Byte.xbb]
                   ++ be_bytes 32 to ++ be_bytes 32 value |}
  else inr "method not found".

(** The digits of a fraction of a second, without trailing zeros. *)
Fixpoint fraction_digits (width : nat) (n : Z) : string :=
  match width with
  | O => EmptyString
  | S width =>
    if n =? 0 then EmptyString
    else
      let unit := 10 ^ Z.of_nat width in
      pretty (n / unit) +:+ fraction_digits width (n mod unit)
  end.

(** [Duration.String()] for durations of a second or more (and zero),
    the only ones a difference of block timestamps can be. *)
Definition whole_Duration_String (d : Z) : string :=
  let a := Z.abs d in
  let secs := a / Second in
  let frac := a mod Second in
  let h := secs / 3600 in
  let m := (secs / 60) mod 60 in
  let s := secs mod 60 in
  (if d <? 0 then "-" else EmptyString)
  +:+ (if 0 <? h then pretty h +:+ "h" else EmptyString)
  +:+ (if 0 <? secs / 60 then pretty m +:+ "m" else EmptyString)
  +:+ pretty s
  +:+ (if frac =? 0 then EmptyString else "." +:+ fraction_digits 9 frac)
  +:+ "s".

Definition go_libraries : Externals := {|
  SetString := big_SetString;
  AsClause := vtho_AsClause;
  Duration_String := whole_Duration_String
|}.

(** The client of a local node with [n] accounts, account [i] at address
    [4096 + i]. *)
Definition solo (n : nat) : Client :=
  {| opts_URL := "http://localhost:8669";
     managers := (λ i, {| Address := 4096 + Z.of_nat i |}) <$> seq 0 n |}.

(** [k] clauses that pay 1, 2, ..., [k] to account 7. *)
Definition payments (k : nat) : list Clause :=
  (λ v, WithValue (Z.of_nat v) (NewClause 7)) <$> seq 1 k.


(** ** The assignment of recipients to funders, as the specification
    words it *)

Section assignment.
Context `{!Externals}.

(** The two clauses of recipient [i]: the native-value clause and the
    token-transfer clause, both for the parsed amount. *)
Definition transfer_clauses (c : Client) (amount : string) (i : Z) : list Clause :=
  match index (managers c) i with
  | None => []
  | Some m =>
    let value := fst (SetString amount 16) in
    match AsClause "transfer" (Address m) value with
    | inl vthoClause => [WithValue value (NewClause (Address m)); vthoClause]
    | inr _ => []
    end
  end.

(** The sequence of funder [f]: the clauses of the recipients [i] of
    [todo] with [i mod start = f], by increasing position in [todo]. *)
Definition spec_assignment (start : Z) (c : Client) (amount : string)
    (todo : list Z) (f : Z) : list Clause :=
  concat (transfer_clauses c amount <$> filter (λ i, i `mod` start = f) todo).

(** A recipient for which both clauses can be built. *)
Definition fundable (c : Client) (amount : string) (i : Z) : Prop :=
  ∃ m vthoClause,
    index (managers c) i = Some m
    ∧ AsClause "transfer" (Address m) (fst (SetString amount 16)) = inl vthoClause.
End assignment.

(** [ceil(k / 100)] *)
Definition ceil_div_100 (k : nat) : nat := ((k + 99) / 100)%nat.

(** The successive slices [clauses[i:end]] of the worker's loop, for
    [i = 0, 100, 200, ...] below [len(clauses)]. *)
Definition batches (clauses : list Clause) : list (list Clause) :=
  (λ j, batch_at clauses (100 * j)%nat) <$> seq 0 (ceil_div_100 (length clauses)).

(** Workers as [launch] leaves them: at the head of their loop. *)
Definition spawned (ws : gmap Z worker) : Prop :=
  ∀ f w, ws !! f = Some w → w_i w = 0%nat ∧ w_pc w = loop_head (w_clauses w) 0.

(** What holds of the worker of funder [f] and of the chain at every
    moment: [w_i] is [100 * n] where [n] batches are confirmed, these
    are the first [n] slices, and at most one more batch is submitted. *)
Definition worker_inv (f : Z) (w : worker) (ch : list chain_event) : Prop :=
  ∃ n : nat,
    w_i w = (100 * n)%nat
    ∧ confirmed_by f ch = (λ j, batch_at (w_clauses w) (100 * j)%nat) <$> seq 0 n
    ∧ match w_pc w with
      | AtSend =>
        (100 * n < length (w_clauses w))%nat
        ∧ submitted_by f ch = confirmed_by f ch
      | AtWait =>
        (100 * n < length (w_clauses w))%nat
        ∧ submitted_by f ch
          = confirmed_by f ch ++ [batch_at (w_clauses w) (100 * n)%nat]
      | ReturnedOk =>
        n = ceil_div_100 (length (w_clauses w))
        ∧ submitted_by f ch = confirmed_by f ch
      | ReturnedErr =>
        (100 * n < length (w_clauses w))%nat
        ∧ (submitted_by f ch = confirmed_by f ch
           ∨ submitted_by f ch
             = confirmed_by f ch ++ [batch_at (w_clauses w) (100 * n)%nat])
      end.

(** The invariant of the worker phase. *)
Definition fund_inv (st : fund_state) : Prop :=
  ∀ f w, workers st !! f = Some w → worker_inv f w (chain st).

(** Some worker has recorded a failure. *)
Definition some_failed (st : fund_state) : Prop :=
  ∃ f w, workers st !! f = Some w ∧ w_pc w = ReturnedErr.

(** The library functions of [E] with another [SetString]. *)
Definition with_SetString (E : Externals) (parse : string → Z → Z * bool)
    : Externals :=
  {| SetString := parse;
     AsClause := @AsClause E;
     Duration_String := @Duration_String E |}.

(** The workers of [Fund(10, "ff")] on twelve accounts. *)
Definition solo_workers : gmap Z worker :=
  {[ 0 := spawn {| Address := 4096 |}
            (@transfer_clauses go_libraries (solo 12) "ff" 10);
     1 := spawn {| Address := 4097 |}
            (@transfer_clauses go_libraries (solo 12) "ff" 11) ]}.

(** ** The registry and the channel, as the specification words them *)

(** The registry key a group was pushed under. *)
Definition group_key (g : ConnectedSamples) : string :=
  endpoint g +:+ FormatUint (block_number g).

(** Every group in the channel was pushed under a key of its own that is
    in the registry, and holds four samples. *)
Definition dedup_inv (sh : shared) : Prop :=
  NoDup (group_key <$> sink sh)
  ∧ ∀ g, g ∈ sink sh → group_key g ∈ blocks sh ∧ length (Samples g) = 4%nat.

(** For the endpoint [url]: a block number has its key in the registry
    exactly when the channel holds a group for it. *)
Definition recorded_inv (url : string) (sh : shared) : Prop :=
  ∀ n, url +:+ FormatUint n ∈ blocks sh
       ↔ ∃ g, g ∈ sink sh ∧ endpoint g = url ∧ block_number g = n.

(** The poller polls the endpoint [url], if it polls at all. *)
Definition polls (url : string) (p : poller) : Prop :=
  match p with
  | Exited => True
  | Polling c _ => opts_URL c = url
  end.

(** The start of a process: nothing registered, nothing pushed. *)
Definition process_start : shared := {| blocks := ∅; sink := [] |}.

(** A block with [n] transactions. *)
Definition block_of (number timestamp : N) (n : nat) : Block :=
  {| Number := number; Timestamp := timestamp; GasUsed := 21000 * N.of_nat n;
     GasLimit := 40000000; Transactions := replicate n "0x00" |}.

(** A tick that reads [b]. *)
Definition reads (b : Block) (vu done : bool) : tick_input :=
  {| best := Some b; vu_ready := vu; ctx_done := done; now := λ k, 1700000000 + Z.of_nat k |}.

(** ** The recipients of one funder *)

(** The recipients that [Fund] assigns to funder [f], by increasing
    index. *)
Definition recipients_of (start : Z) (c : Client) (f : Z) : list Z :=
  filter (λ i, i `mod` start = f) (recipients start c).

(** The moves of a schedule that are addressed to funder [f]. *)
Definition own_moves (f : Z) (sched : list (Z * reply)) : list (Z * reply) :=
  filter (λ mv, mv.1 = f) sched.

(** ** The rest of the module: panics of the Go run time *)

Inductive go_panic :=
| index_out_of_range
| makeslice_len_out_of_range
| nil_pointer_dereference
| invalid_argument_to_Intn.

(** A call that ends normally with a value, or in a run-time panic. *)
Inductive go_result (A : Type) :=
| Done (a : A)
| Crashed (p : go_panic).
Arguments Done {A} a.
Arguments Crashed {A} p.

(** ** NewClient and its options (lines 225-228, 267-330, 358-386) *)

(** [options] *)
Record options := {
  URL : string;
  Mnemonic : string;
  Accounts : Z
}.

Definition mnemonic : string :=
  "denial kitchen pet squirrel other broom bar gas better priority spoil cross".
Definition accountAmount : Z := 10.

(** What [NewClient], [newOptionsFrom] and [Accounts] call and do not
    define.
    - [ExportTo v]: [rt.ExportTo(v, &optionsArg)], the exported map or an
      error;
    - [json_Marshal], [json_Decode]: [json.Marshal] of the map, and
      [Decode] into a zero [options] by a decoder that disallows unknown
      fields;
    - [FromMnemonic], [FromURL]: [hdwallet.FromMnemonic] and
      [thorgo.FromURL], of which only success or the error matters;
    - [derive wa i]: the manager
      [txmanager.FromPK(wa.Child(i).MustGetPrivateKey(), thor)];
    - [Address_String]: [common.Address.String]. *)
Class Host := {
  js_Value : Type;
  optionsArg : Type;
  Wallet : Type;
  ExportTo : js_Value → optionsArg + error;
  json_Marshal : optionsArg → string + error;
  json_Decode : string → options + error;
  FromMnemonic : string → Wallet + error;
  FromURL : string → option error;
  derive : Wallet → Z → PKManager;
  Address_String : common_Address → string
}.

(** How a call of [NewClient] ends: [common.Throw] raises a JavaScript
    exception, the Go run time panics, or the client is returned, with
    its [accounts] field and the poller goroutine it has started. *)
Inductive construction :=
| Throws (e : error)
| Crashes (p : go_panic)
| Constructs (c : Client) (accounts : Z) (p : poller).

Section NewClient.
Context `{!Host}.

(** Lines 367-386 *)
Definition newOptionsFrom (argument : optionsArg) : options + error :=
  match json_Marshal argument with
  | inr err => inr ("unable to serialize options to JSON " +:+ err)
  | inl jsonStr =>
    match json_Decode jsonStr with
    | inr err => inr ("unable to decode options " +:+ err)
    | inl opts => inl opts
    end
  end.

(** Lines 281-291: the defaults. *)
Definition with_defaults (opts : options) : options :=
  let opts :=
    if decide (URL opts = EmptyString)
    then {| URL := "http://localhost:8669"; Mnemonic := Mnemonic opts;
            Accounts := Accounts opts |}
    else opts in
  let opts :=
    if decide (Mnemonic opts = EmptyString)
    then {| URL := URL opts; Mnemonic := mnemonic; Accounts := Accounts opts |}
    else opts in
  if Accounts opts =? 0
  then {| URL := URL opts; Mnemonic := Mnemonic opts; Accounts := accountAmount |}
  else opts.

(** Lines 306-314: [managers[i] = manager] for [i = 0 .. Accounts-1], on
    the slice of nil pointers that [make] returns; [uint32(i)] wraps. *)
Fixpoint managers_loop (wa : Wallet) (todo : list nat)
    (managers : list (option PKManager)) : list (option PKManager) :=
  match todo with
  | [] => managers
  | i :: todo =>
    let manager := derive wa (Z.of_nat i `mod` 2 ^ 32) in
    managers_loop wa todo (<[i := Some manager]> managers)
  end.

(** [NewClient] on the arguments of the constructor call; [first] is the
    answer to the first read of the poller it starts.  A length that
    memory cannot hold is not modelled. *)
Definition NewClient (Arguments : list js_Value) (first : option Block)
    : construction :=
  match Arguments with
  | [] => Crashes index_out_of_range
  | arg :: _ =>
    match ExportTo arg with
    | inr _ => Throws "unable to parse options object"
    | inl argument =>
      match newOptionsFrom argument with
      | inr err => Throws ("invalid options; reason: " +:+ err)
      | inl opts =>
        let opts := with_defaults opts in
        match FromMnemonic (Mnemonic opts) with
        | inr err => Throws ("invalid options; reason: " +:+ err)
        | inl wa =>
          match FromURL (URL opts) with
          | Some err => Throws ("invalid options; reason: " +:+ err)
          | None =>
            if Accounts opts <? 0 then Crashes makeslice_len_out_of_range
            else
              let n := Z.to_nat (Accounts opts) in
              let managers := managers_loop wa (seq 0 n) (replicate n None) in
              let client :=
                {| opts_URL := URL opts; managers := omap id managers |} in
              Constructs client (Accounts opts) (pollForBlocks client first)
          end
        end
      end
    end
  end.

(** [Client.Accounts], lines 32-38: the loop over the managers. *)
Fixpoint Accounts_loop (todo : list PKManager) (addresses : list string)
    : list string :=
  match todo with
  | [] => addresses
  | i :: todo => Accounts_loop todo (addresses ++ [Address_String (Address i)])
  end.

Definition Client_Accounts (c : Client) : list string :=
  Accounts_loop (managers c) [].
End NewClient.

(** ** reportMetricsFromStats (lines 346-356) *)

(** The VU of a client: [c.vu] is nil, [c.vu.State()] is nil, or the VU
    runs, its context done or not. *)
Inductive vu_status := NoVU | NoState | Running (done : bool).

(** The sample is built from [c.vu.Context()] and
    [c.vu.State().Samples], which dereference the VU and its state, and
    is then handed to [PushIfNotDone]. *)
Definition reportMetricsFromStats (vu : vu_status) (call : string) (t : Z)
    (now : Z) (output : list Sample) : go_result (list Sample) :=
  match vu with
  | NoVU | NoState => Crashed nil_pointer_dereference
  | Running done =>
    let sample :=
      {| Sample_Metric := vechain_req_duration;
         Sample_Tags := {[ "call" := call ]};
         Sample_Value := float64_of_int64 (Z.quot t Millisecond);
         Sample_Time := now |} in
    Done (if done then output else output ++ [sample])
  end.

(** ** Package random (random/random.go) *)

Module random.

(** The generator [prng], a [*math/rand.Rand]: [Read s n] fills a slice
    of length [n] and [Intn s n] draws from [[0, n)] for [n > 0], each
    returning the next state of the generator. *)
Class Rand := {
  state : Type;
  Read : state → nat → list Byte.byte * state;
  Read_length : ∀ s n, length (Read s n).1 = n;
  Intn : state → Z → Z * state;
  Intn_range : ∀ s n, 0 < n → 0 ≤ (Intn s n).1 < n
}.

Definition HashLength : nat := 32.
Definition AddressLength : nat := 20.

(** [common.BytesToHash] and [common.BytesToAddress]: a longer input is
    cropped from the left, a shorter one is padded on the left. *)
Definition SetBytes (size : nat) (b : list Byte.byte) : list Byte.byte :=
  let b := if (size <? length b)%nat then drop (length b - size) b else b in
  replicate (size - length b) Byte.x00 ++ b.

Section random.
Context `{!Rand}.

(** [Bytes]: [make([]byte, n)] panics on a negative length. *)
Definition Bytes (n : Z) (s : state) : go_result (list Byte.byte * state) :=
  if n <? 0 then Crashed makeslice_len_out_of_range
  else Done (Read s (Z.to_nat n)).

Definition Hash (s : state) : go_result (list Byte.byte * state) :=
  match Bytes (Z.of_nat HashLength) s with
  | Done (b, s) => Done (SetBytes HashLength b, s)
  | Crashed p => Crashed p
  end.

Definition Address (s : state) : go_result (list Byte.byte * state) :=
  match Bytes (Z.of_nat AddressLength) s with
  | Done (b, s) => Done (SetBytes AddressLength b, s)
  | Crashed p => Crashed p
  end.

(** [uint8(prng.Intn(256))] *)
Definition Uint8 (s : state) : Z * state :=
  let '(v, s) := Intn s 256 in (v `mod` 2 ^ 8, s).

(** [slice[prng.Intn(len(slice))]]: [Intn] panics when its argument is
    not positive. *)
Definition Element {T} (slice : list T) (s : state) : go_result (T * state) :=
  let n := Z.of_nat (length slice) in
  if n <=? 0 then Crashed invalid_argument_to_Intn
  else
    let '(i, s) := Intn s n in
    match index slice i with
    | Some x => Done (x, s)
    | None => Crashed index_out_of_range
    end.
End random.

(** A linear congruential generator, to run the functions on. *)
Fixpoint lcg_bytes (s : Z) (n : nat) : list Byte.byte * Z :=
  match n with
  | O => ([], s)
  | S n =>
    let s' := (s * 6364136223846793005 + 1442695040888963407) `mod` 2 ^ 64 in
    let '(bs, s'') := lcg_bytes s' n in
    (default Byte.x00 (Byte.of_N (Z.to_N (s' / 2 ^ 56))) :: bs, s'')
  end.

Definition lcg_Intn (s : Z) (n : Z) : Z * Z :=
  let s' := (s * 6364136223846793005 + 1442695040888963407) `mod` 2 ^ 64 in
  ((s' / 2 ^ 33) `mod` n, s').

End random.

(** The generator above as a [Rand]. *)
Definition lcg : random.Rand.
Proof.
  refine {| random.state := Z; random.Read := random.lcg_bytes;
            random.Intn := random.lcg_Intn |}.
  - intros s n. revert s. induction n as [|n IH]; intros s; [done|].
    cbn [random.lcg_bytes].
    specialize (IH ((s * 6364136223846793005 + 1442695040888963407) `mod` 2 ^ 64)).
    destruct (random.lcg_bytes _ n) as [bs s'']. cbn in *. by rewrite IH.
  - intros s n Hn. unfold random.lcg_Intn. cbn [fst]. by apply Z.mod_pos_bound.
Defined.

(** A host for evaluation: every constructor argument exports to an
    object that decodes to [opts]; the wallet is its mnemonic, any
    endpoint is accepted, account [i] has address [4096 + i], and
    addresses are printed in decimal. *)
Definition host_decoding (opts : options) : Host :=
  {| js_Value := unit;
     optionsArg := unit;
     Wallet := string;
     ExportTo := λ _, inl ();
     json_Marshal := λ _, inl "{}";
     json_Decode := λ _, inl opts;
     FromMnemonic := λ m, inl m;
     FromURL := λ _, None;
     derive := λ _ i, {| Address := 4096 + i |};
     Address_String := λ a, pretty a |}.

(** The options of [new Client({})]. *)
Definition no_options : options :=
  {| URL := EmptyString; Mnemonic := EmptyString; Accounts := 0 |}.

(* ===================================================================== *)
(** * Part II: theorems                                                   *)
(* ===================================================================== *)

(** ** Fund: the start index *)

Section Fund_start.
Context `{!Externals}.

(** X1: for [start > N], [Fund] returns its start-index error; no clause
    is built and nothing is sent. *)
Lemma Fund_start_too_large c start amount sched :
  Z.of_nat (length (managers c)) < start →
  Fund c start amount sched
  = (Returns (Some "start index is greater than the number of accounts"), []).
Proof.
  intros Hlt. unfold Fund, Fund_prepare.
  destruct (Z.ltb_spec (Z.of_nat (length (managers c))) start); [done | lia].
Qed.

Lemma recipients_zero_cons url m ms :
  recipients 0 {| opts_URL := url; managers := m :: ms |}
  = 0 :: seqZ 1 (Z.of_nat (length ms)).
Proof.
  unfold recipients. cbn [managers length].
  rewrite Z.sub_0_r, Nat2Z.inj_succ, seqZ_cons by lia.
  do 2 f_equal; lia.
Qed.

Lemma launch_empty c : launch c ∅ = Ok ∅.
Proof. unfold launch. rewrite map_imap_empty. by rewrite decide_True. Qed.

Lemma run_no_workers sched st : workers st = ∅ → run sched st = st.
Proof.
  intros Hst. unfold run. induction sched as [|mv sched IH] using rev_ind; [done|].
  rewrite foldl_app. cbn [foldl]. rewrite IH. unfold step.
  by rewrite Hst, lookup_empty.
Qed.

(** C1 (code_bug): at [start = 0] the code has no check.  With at least
    one account (a client always has one) the first iteration reads
    [c.managers[0]] and then evaluates [0 % 0]: [Fund] panics with an
    integer division by zero instead of returning an error; on an empty
    account list the loop would be skipped and [Fund] would return
    [nil].  No transaction is sent in either case. *)
Theorem Fund_start_zero :
  (∀ url m ms amount sched,
     Fund {| opts_URL := url; managers := m :: ms |} 0 amount sched
     = (Panics IntegerDivideByZero, []))
  ∧ (∀ url amount sched,
     Fund {| opts_URL := url; managers := [] |} 0 amount sched
     = (Returns None, [])).
Proof.
  split.
  - intros url m ms amount sched. unfold Fund, Fund_prepare, Fund_clauses.
    rewrite recipients_zero_cons. reflexivity.
  - intros url amount sched. unfold Fund, Fund_prepare, Fund_clauses.
    change (recipients 0 {| opts_URL := url; managers := [] |}) with (@nil Z).
    cbn [managers length Fund_loop]. rewrite launch_empty.
    change (Z.of_nat 0 <? 0) with false. cbn match.
    by rewrite run_no_workers.
Qed.
End Fund_start.

(** ** Fund: the assignment of recipients to funders *)

Section Fund_assignment.
Context `{!Externals}.

Lemma index_Some {A} (l : list A) i :
  0 ≤ i < Z.of_nat (length l) → is_Some (index l i).
Proof.
  intros Hi. unfold index. destruct (Z.ltb_spec i 0); [lia|].
  apply lookup_lt_is_Some. lia.
Qed.

Lemma index_is_Some_range {A} (l : list A) i :
  is_Some (index l i) → 0 ≤ i < Z.of_nat (length l).
Proof.
  unfold index. destruct (Z.ltb_spec i 0); [by intros [? ?]|].
  intros Hs%lookup_lt_is_Some. lia.
Qed.

Lemma Fund_body_fundable start c amount i clauses :
  0 < start → fundable c amount i →
  Fund_body start c amount i clauses
  = Ok (<[i `mod` start :=
           default [] (clauses !! (i `mod` start)) ++ transfer_clauses c amount i]>
        clauses).
Proof.
  intros Hs (m & vtho & Hm & Hv).
  assert (0 ≤ i) by (apply (index_is_Some_range (managers c)); eauto).
  unfold Fund_body, transfer_clauses. rewrite Hm. cbn zeta. rewrite Hv.
  destruct (Z.eqb_spec start 0); [lia|].
  by rewrite Z.rem_mod_nonneg by lia.
Qed.

Lemma spec_assignment_cons start c amount i todo f :
  spec_assignment start c amount (i :: todo) f
  = (if decide (i `mod` start = f) then transfer_clauses c amount i else [])
    ++ spec_assignment start c amount todo f.
Proof.
  unfold spec_assignment. case_decide.
  - by rewrite filter_cons_True.
  - by rewrite filter_cons_False.
Qed.

Lemma Fund_loop_fundable start c amount todo clauses0 :
  0 < start → Forall (fundable c amount) todo →
  ∃ clauses,
    Fund_loop start c amount todo clauses0 = Ok clauses
    ∧ (∀ f, default [] (clauses !! f)
            = default [] (clauses0 !! f) ++ spec_assignment start c amount todo f)
    ∧ (∀ f, is_Some (clauses !! f)
            ↔ is_Some (clauses0 !! f) ∨ ∃ i, i ∈ todo ∧ i `mod` start = f).
Proof.
  intros Hs Htodo. revert clauses0.
  induction Htodo as [|i todo Hi _ IH]; intros clauses0.
  - exists clauses0. split_and!; [done| |].
    + intros f. unfold spec_assignment. cbn. by rewrite app_nil_r.
    + intros f. split; [by left|]. intros [?|(i & Hi & _)]; [done|].
      by apply elem_of_nil in Hi.
  - cbn [Fund_loop]. rewrite Fund_body_fundable by done.
    destruct (IH (<[i `mod` start :=
        default [] (clauses0 !! (i `mod` start)) ++ transfer_clauses c amount i]>
        clauses0)) as (clauses & Hrun & Hseq & Hdom).
    exists clauses. split_and!; [done| |].
    + intros f. rewrite Hseq, spec_assignment_cons.
      destruct (decide (i `mod` start = f)) as [->|Hne].
      * rewrite lookup_insert_eq. cbn. by rewrite <-app_assoc.
      * by rewrite lookup_insert_ne.
    + intros f. rewrite Hdom. destruct (decide (i `mod` start = f)) as [<-|Hne].
      * rewrite lookup_insert_eq. split.
        -- intros _. right. exists i. split; [left|done].
        -- intros _. left. by eexists.
      * rewrite lookup_insert_ne by done. split.
        -- intros [?|(j & Hj & Hjf)]; [by left|]. right. exists j. split; [by right|done].
        -- intros [?|(j & Hj & Hjf)]; [by left|].
           apply elem_of_cons in Hj as [->|Hj]; [done|]. right. by exists j.
Qed.

(** C2: for [0 < start ≤ N], when the token clause of every recipient
    can be built, the loop ends with a map in which the entry of funder
    [f] is exactly the clauses of the recipients [i] of [start .. N-1]
    with [i mod start = f], by increasing [i]; a funder has an entry if
    and only if it has such a recipient; [i mod start] lies below
    [start]; and every recipient contributes exactly two clauses, the
    native-value clause to its address and the token clause, both for the
    amount. *)
Theorem Fund_assigns_recipients c start amount :
  0 < start ≤ Z.of_nat (length (managers c)) →
  (∀ i, start ≤ i < Z.of_nat (length (managers c)) → fundable c amount i) →
  ∃ clauses,
    Fund_clauses start c amount = Ok clauses
    ∧ (∀ f, default [] (clauses !! f)
            = spec_assignment start c amount (recipients start c) f)
    ∧ (∀ f, is_Some (clauses !! f)
            ↔ ∃ i, start ≤ i < Z.of_nat (length (managers c)) ∧ i `mod` start = f)
    ∧ (∀ i, start ≤ i < Z.of_nat (length (managers c)) →
            0 ≤ i `mod` start < start
            ∧ ∃ m vthoClause,
                index (managers c) i = Some m
                ∧ AsClause "transfer" (Address m) (fst (SetString amount 16))
                  = inl vthoClause
                ∧ transfer_clauses c amount i
                  = [ {| To := Some (Address m);
                         Value := fst (SetString amount 16);
                         Data := [] |};
                      vthoClause ]).
Proof.
  intros [Hs HN] Hfund.
  destruct (Fund_loop_fundable start c amount (recipients start c) ∅)
    as (clauses & Hrun & Hseq & Hdom); [lia| |].
  { apply Forall_forall. intros i Hi. apply Hfund.
    unfold recipients in Hi. apply elem_of_seqZ in Hi. lia. }
  exists clauses. split_and!; [done| | |].
  - intros f. by rewrite Hseq, lookup_empty.
  - intros f. rewrite Hdom, lookup_empty. split.
    + intros [[? ?]|(i & Hi & Hf)]; [done|]. exists i. split; [|done].
      unfold recipients in Hi. apply elem_of_seqZ in Hi. lia.
    + intros (i & Hi & Hf). right. exists i. split; [|done].
      unfold recipients. apply elem_of_seqZ. lia.
  - intros i Hi. split; [apply Z.mod_pos_bound; lia|].
    destruct (Hfund i Hi) as (m & vtho & Hm & Hv). exists m, vtho.
    split_and!; [done..|]. unfold transfer_clauses. by rewrite Hm, Hv.
Qed.
End Fund_assignment.

Lemma Fund_assigns_recipients_witness :
  ∃ clauses,
    @Fund_clauses go_libraries 10 (solo 12) "ff" = Ok clauses
    ∧ default [] (clauses !! 0) = @transfer_clauses go_libraries (solo 12) "ff" 10
    ∧ default [] (clauses !! 1) = @transfer_clauses go_libraries (solo 12) "ff" 11
    ∧ default [] (clauses !! 2) = []
    ∧ (is_Some (clauses !! 9) ↔
       ∃ i, 10 ≤ i < Z.of_nat (length (managers (solo 12))) ∧ i `mod` 10 = 9).
Proof.
  destruct (@Fund_assigns_recipients go_libraries (solo 12) 10 "ff")
    as (clauses & Hrun & Hseq & Hdom & _).
  - cbn. lia.
  - intros i Hi. cbn in Hi.
    assert (i = 10 ∨ i = 11) as [-> | ->] by lia;
      eexists; eexists; split; reflexivity.
  - exists clauses. split; [exact Hrun|].
    rewrite !Hseq. split_and!; [reflexivity..|apply Hdom].
Defined.

(** ** Fund: the batches of a worker *)

Section Fund_batches.
Local Open Scope nat_scope.

Lemma ceil_div_100_unique k n :
  k ≤ 100 * n → 100 * n < k + 100 → ceil_div_100 k = n.
Proof.
  intros Hle Hlt. unfold ceil_div_100. symmetry.
  apply Nat.div_unique with (k + 99 - 100 * n); lia.
Qed.

Lemma ceil_div_100_bounds k :
  k ≤ 100 * ceil_div_100 k ∧ 100 * ceil_div_100 k < k + 100.
Proof.
  unfold ceil_div_100.
  pose proof (Nat.div_mod_eq (k + 99) 100) as Hd.
  pose proof (Nat.mod_upper_bound (k + 99) 100) as Hm. lia.
Qed.

Lemma batch_at_take_drop cl i : batch_at cl i = take 100 (drop i cl).
Proof.
  unfold batch_at, slice, batch_end.
  destruct (Nat.ltb_spec (length cl) (i + 100)) as [Hlt|Hge].
  - rewrite !take_ge; [done|rewrite length_drop; lia..].
  - f_equal. lia.
Qed.

Lemma length_batch_at cl i : length (batch_at cl i) = 100 `min` (length cl - i).
Proof. by rewrite batch_at_take_drop, length_take, length_drop. Qed.

Lemma concat_batches_upto cl n :
  concat ((λ j, batch_at cl (100 * j)) <$> seq 0 n) = take (100 * n) cl.
Proof.
  induction n as [|n IH]; [done|].
  rewrite seq_S, fmap_app, concat_app, IH. cbn [fmap list_fmap concat].
  rewrite app_nil_r, batch_at_take_drop, Nat.add_0_l.
  replace (100 * S n) with (100 * n + 100) by lia.
  by rewrite take_take_drop.
Qed.

Lemma length_batches cl : length (batches cl) = ceil_div_100 (length cl).
Proof. unfold batches. by rewrite length_fmap, length_seq. Qed.

Lemma concat_batches cl : concat (batches cl) = cl.
Proof.
  unfold batches. rewrite concat_batches_upto.
  apply take_ge. apply ceil_div_100_bounds.
Qed.

Lemma batches_upto_lookup cl n j b :
  ((λ j, batch_at cl (100 * j)) <$> seq 0 n) !! j = Some b →
  j < n ∧ b = batch_at cl (100 * j).
Proof.
  rewrite list_lookup_fmap. intros Hb.
  destruct (seq 0 n !! j) as [j'|] eqn:Hj; [|done].
  apply lookup_seq in Hj as [-> Hj]. cbn in Hb. by injection Hb as <-.
Qed.

Lemma batches_full cl j b :
  batches cl !! j = Some b → S j < length (batches cl) → length b = 100.
Proof.
  intros Hb Hj. rewrite length_batches in Hj.
  apply batches_upto_lookup in Hb as [_ ->].
  rewrite length_batch_at. pose proof (ceil_div_100_bounds (length cl)). lia.
Qed.

Lemma batches_upto_prefix cl n :
  n ≤ ceil_div_100 (length cl) →
  ((λ j, batch_at cl (100 * j)) <$> seq 0 n) `prefix_of` batches cl.
Proof.
  intros Hn. unfold batches.
  replace (ceil_div_100 (length cl)) with (n + (ceil_div_100 (length cl) - n)) by lia.
  rewrite seq_app, fmap_app. by apply prefix_app_r.
Qed.

Lemma below_ceil_div_100 k n : 100 * n < k → S n ≤ ceil_div_100 k.
Proof. intros Hn. pose proof (ceil_div_100_bounds k). lia. Qed.
End Fund_batches.

(** ** Fund: the worker phase under every interleaving *)

Section Fund_workers.
Local Open Scope nat_scope.

Lemma submitted_by_app f ch1 ch2 :
  submitted_by f (ch1 ++ ch2) = submitted_by f ch1 ++ submitted_by f ch2.
Proof. apply omap_app. Qed.

Lemma confirmed_by_app f ch1 ch2 :
  confirmed_by f (ch1 ++ ch2) = confirmed_by f ch1 ++ confirmed_by f ch2.
Proof. apply omap_app. Qed.

Lemma worker_step_fixed f r w :
  w_clauses (worker_step f r w).1.1 = w_clauses w
  ∧ w_manager (worker_step f r w).1.1 = w_manager w.
Proof. unfold worker_step. by destruct (w_pc w), r. Qed.

Lemma worker_step_other f g r w :
  g ≠ f →
  submitted_by g (worker_step f r w).1.2 = []
  ∧ confirmed_by g (worker_step f r w).1.2 = [].
Proof.
  intros Hne. unfold worker_step.
  destruct (w_pc w), r; cbn; rewrite ?decide_False by done; done.
Qed.

Lemma worker_step_returned f r w :
  returned w = true → worker_step f r w = (w, [], None).
Proof. unfold returned, worker_step. by destruct (w_pc w), r. Qed.

Lemma submitted_by_one f a b :
  submitted_by f [Submitted f a b] = [b] ∧ confirmed_by f [Submitted f a b] = [].
Proof. cbn. by rewrite decide_True. Qed.

Lemma confirmed_by_one f a b :
  confirmed_by f [Confirmed f a b] = [b] ∧ submitted_by f [Confirmed f a b] = [].
Proof. cbn. by rewrite decide_True. Qed.

Lemma worker_step_inv f r w ch :
  worker_inv f w ch →
  worker_inv f (worker_step f r w).1.1 (ch ++ (worker_step f r w).1.2).
Proof.
  destruct w as [m cl i p]. intros (n & Hi & Hc & Hpc).
  cbn -[Nat.mul] in Hi, Hc, Hpc.
  subst i. unfold worker_step, worker_inv. cbn [w_pc w_clauses w_i w_manager].
  destruct p, r; cbn [fst snd set_pc next_batch w_pc w_clauses w_i w_manager];
    rewrite ?app_nil_r.
  - (* Send accepted *)
    destruct Hpc as [Hlt Hs]. exists n.
    rewrite submitted_by_app, confirmed_by_app.
    destruct (submitted_by_one f (Address m) (batch_at cl (100 * n))) as [-> ->].
    by rewrite app_nil_r, Hs.
  - (* Send refused *)
    destruct Hpc as [Hlt Hs]. exists n. auto.
  - (* Wait succeeded *)
    destruct Hpc as [Hlt Hs]. exists (S n).
    rewrite submitted_by_app, confirmed_by_app.
    destruct (confirmed_by_one f (Address m) (batch_at cl (100 * n))) as [-> ->].
    rewrite app_nil_r.
    split; [lia|]. split.
    { by rewrite seq_S, fmap_app, Hc. }
    unfold loop_head. destruct (Nat.ltb_spec (100 * n + 100) (length cl)).
    + split; [lia|done].
    + split; [|done]. symmetry. apply ceil_div_100_unique; lia.
  - (* Wait failed *)
    destruct Hpc as [Hlt Hs]. exists n. auto.
  - by exists n.
  - by exists n.
  - by exists n.
  - by exists n.
Qed.

Lemma worker_inv_other f g r w w' ch :
  g ≠ f → worker_inv g w' ch → worker_inv g w' (ch ++ (worker_step f r w).1.2).
Proof.
  intros Hne (n & Hi & Hc & Hpc). exists n.
  destruct (worker_step_other f g r w Hne) as [Hs0 Hc0].
  rewrite submitted_by_app, confirmed_by_app, Hs0, Hc0, !app_nil_r. done.
Qed.

Lemma step_unfold st g r w :
  workers st !! g = Some w →
  step st (g, r)
  = {| workers := <[g := (worker_step g r w).1.1]> (workers st);
       clauseErr := match (worker_step g r w).2 with
                    | Some e => Some e
                    | None => clauseErr st
                    end;
       chain := chain st ++ (worker_step g r w).1.2 |}.
Proof.
  intros Hw. unfold step. cbn [fst snd]. rewrite Hw.
  by destruct (worker_step g r w) as [[w' evs] err].
Qed.

Lemma step_absent st g r : workers st !! g = None → step st (g, r) = st.
Proof. intros Hw. unfold step. cbn [fst]. by rewrite Hw. Qed.

Lemma step_returned st g r w :
  workers st !! g = Some w → returned w = true → step st (g, r) = st.
Proof.
  intros Hw Hr. rewrite (step_unfold _ _ _ _ Hw), worker_step_returned by done.
  destruct st as [ws e ch]. cbn in *. by rewrite insert_id, app_nil_r.
Qed.

Lemma step_inv st mv : fund_inv st → fund_inv (step st mv).
Proof.
  intros Hinv. destruct mv as [g r].
  destruct (workers st !! g) as [w|] eqn:Hw; [|by rewrite step_absent].
  rewrite (step_unfold _ _ _ _ Hw). intros f w' Hf. cbn in Hf |- *.
  destruct (decide (g = f)) as [->|Hne].
  - rewrite lookup_insert_eq in Hf. injection Hf as <-.
    apply worker_step_inv, Hinv, Hw.
  - rewrite lookup_insert_ne in Hf by done.
    apply worker_inv_other; [done|]. by apply Hinv.
Qed.

Lemma run_snoc sched mv st : run (sched ++ [mv]) st = step (run sched st) mv.
Proof. unfold run. by rewrite foldl_app. Qed.

Lemma run_inv sched st : fund_inv st → fund_inv (run sched st).
Proof.
  intros Hinv. induction sched as [|mv sched IH] using rev_ind; [done|].
  rewrite run_snoc. by apply step_inv.
Qed.

Lemma start_inv ws : spawned ws → fund_inv (start_state ws).
Proof.
  intros Hsp f w Hw. destruct (Hsp f w Hw) as [Hi Hpc]. exists 0.
  rewrite Hpc. cbn. split; [done|]. split; [done|].
  unfold loop_head. destruct (Nat.ltb_spec 0 (length (w_clauses w))) as [Hlt|Hge].
  - split; [lia|done].
  - split; [|done]. symmetry. apply ceil_div_100_unique; lia.
Qed.

Lemma launch_spawned c clauses ws :
  launch c clauses = Ok ws →
  spawned ws
  ∧ ∀ f w, ws !! f = Some w →
      clauses !! f = Some (w_clauses w)
      ∧ index (managers c) f = Some (w_manager w).
Proof.
  unfold launch. case_decide; [|done]. intros [= <-].
  assert (Hl : ∀ f w,
    map_imap (λ f cl, (λ m, spawn m cl) <$> index (managers c) f) clauses !! f
    = Some w →
    ∃ m, clauses !! f = Some (w_clauses w) ∧ index (managers c) f = Some m
         ∧ w = spawn m (w_clauses w)).
  { intros f w. rewrite map_lookup_imap.
    destruct (clauses !! f) as [cl|]; [|done]. cbn.
    destruct (index (managers c) f) as [m|]; [|done]. cbn.
    intros [= <-]. by exists m. }
  split.
  - intros f w Hw. destruct (Hl f w Hw) as (m & _ & _ & ->). done.
  - intros f w Hw. destruct (Hl f w Hw) as (m & Hc & Hm & ->). done.
Qed.

Lemma step_fixed st mv f w :
  workers (step st mv) !! f = Some w →
  ∃ w0, workers st !! f = Some w0
        ∧ w_clauses w = w_clauses w0 ∧ w_manager w = w_manager w0.
Proof.
  destruct mv as [g r].
  destruct (workers st !! g) as [wg|] eqn:Hg; [|rewrite step_absent by done; eauto].
  rewrite (step_unfold _ _ _ _ Hg). cbn.
  destruct (decide (g = f)) as [->|Hne].
  - rewrite lookup_insert_eq. intros [= <-]. exists wg.
    destruct (worker_step_fixed f r wg). done.
  - rewrite lookup_insert_ne by done. eauto.
Qed.

Lemma run_fixed sched st f w :
  workers (run sched st) !! f = Some w →
  ∃ w0, workers st !! f = Some w0
        ∧ w_clauses w = w_clauses w0 ∧ w_manager w = w_manager w0.
Proof.
  revert w. induction sched as [|mv sched IH] using rev_ind; intros w; [eauto|].
  rewrite run_snoc. intros (w1 & Hw1 & Hc & Hm)%step_fixed.
  destruct (IH _ Hw1) as (w0 & Hw0 & Hc0 & Hm0). exists w0.
  split; [done|]. split; congruence.
Qed.
End Fund_workers.

Section Fund_partition.
Local Open Scope nat_scope.

(** Under every interleaving and whatever the chain answers, the batches
    a worker has handed to [Send] are the first slices of its clause
    sequence cut every 100 clauses, and the confirmed ones are among
    them; for a worker that has left its loop without an error they are
    all of them. *)
Lemma worker_batches_safe c clauses ws sched f w :
  launch c clauses = Ok ws →
  workers (run sched (start_state ws)) !! f = Some w →
  clauses !! f = Some (w_clauses w)
  ∧ submitted_by f (chain (run sched (start_state ws)))
    `prefix_of` batches (w_clauses w)
  ∧ confirmed_by f (chain (run sched (start_state ws)))
    `prefix_of` submitted_by f (chain (run sched (start_state ws)))
  ∧ (w_pc w = ReturnedOk →
     submitted_by f (chain (run sched (start_state ws))) = batches (w_clauses w)
     ∧ confirmed_by f (chain (run sched (start_state ws))) = batches (w_clauses w)).
Proof.
  intros Hl Hw. destruct (launch_spawned _ _ _ Hl) as [Hsp Hcl].
  destruct (run_fixed _ _ _ _ Hw) as (w0 & Hw0 & Hc0 & _). cbn in Hw0.
  destruct (Hcl _ _ Hw0) as [Hclf _].
  pose proof (run_inv sched _ (start_inv _ Hsp) f w Hw) as (n & Hi & Hc & Hpc).
  split; [congruence|].
  assert (Hconf : confirmed_by f (chain (run sched (start_state ws))) ++
                  [batch_at (w_clauses w) (100 * n)]
                  = (λ j, batch_at (w_clauses w) (100 * j)) <$> seq 0 (S n)).
  { by rewrite seq_S, fmap_app, Hc. }
  destruct (w_pc w) eqn:Hp.
  - destruct Hpc as [Hlt ->]. split_and!; [|done|done].
    rewrite Hc. apply batches_upto_prefix. apply below_ceil_div_100 in Hlt. lia.
  - destruct Hpc as [Hlt ->]. split_and!; [|by apply prefix_app_r|done].
    rewrite Hconf. by apply batches_upto_prefix, below_ceil_div_100.
  - destruct Hpc as [-> ->]. split_and!; [|done|].
    + rewrite Hc. by apply batches_upto_prefix.
    + intros _. by rewrite Hc.
  - destruct Hpc as [Hlt [-> | ->]]; (split_and!; [| |done]).
    + rewrite Hc. apply batches_upto_prefix. apply below_ceil_div_100 in Hlt. lia.
    + done.
    + rewrite Hconf. by apply batches_upto_prefix, below_ceil_div_100.
    + by apply prefix_app_r.
Qed.
End Fund_partition.

(** ** Fund: failures *)

Section Fund_failures.
Context `{!Externals}.

Lemma run_cons mv more st : run (mv :: more) st = run more (step st mv).
Proof. done. Qed.

Lemma chain_step st mv : chain st `prefix_of` chain (step st mv).
Proof.
  destruct mv as [g r].
  destruct (workers st !! g) as [w|] eqn:Hw; [|by rewrite step_absent].
  rewrite (step_unfold _ _ _ _ Hw). cbn. by apply prefix_app_r.
Qed.

Lemma chain_run more st : chain st `prefix_of` chain (run more st).
Proof.
  revert st. induction more as [|mv more IH]; intros st; [done|].
  rewrite run_cons. etrans; [apply chain_step|apply IH].
Qed.

Lemma step_failed_stays st mv f w :
  workers st !! f = Some w → w_pc w = ReturnedErr →
  workers (step st mv) !! f = Some w
  ∧ submitted_by f (chain (step st mv)) = submitted_by f (chain st)
  ∧ confirmed_by f (chain (step st mv)) = confirmed_by f (chain st).
Proof.
  intros Hw Hpc. destruct mv as [g r].
  destruct (decide (g = f)) as [->|Hne].
  { rewrite (step_returned _ _ _ _ Hw); [done|]. unfold returned. by rewrite Hpc. }
  destruct (workers st !! g) as [wg|] eqn:Hg; [|by rewrite step_absent].
  rewrite (step_unfold _ _ _ _ Hg). cbn [workers chain].
  rewrite lookup_insert_ne by done.
  rewrite submitted_by_app, confirmed_by_app.
  destruct (worker_step_other g f r wg) as [-> ->]; [done|].
  by rewrite !app_nil_r.
Qed.

Lemma run_failed_stays more st f w :
  workers st !! f = Some w → w_pc w = ReturnedErr →
  workers (run more st) !! f = Some w
  ∧ submitted_by f (chain (run more st)) = submitted_by f (chain st)
  ∧ confirmed_by f (chain (run more st)) = confirmed_by f (chain st).
Proof.
  revert st. induction more as [|mv more IH]; intros st Hw Hpc; [done|].
  rewrite run_cons.
  destruct (step_failed_stays st mv f w Hw Hpc) as (Hw' & Hs & Hc).
  destruct (IH _ Hw' Hpc) as (? & ? & ?). split_and!; [done|congruence..].
Qed.

Lemma step_fails st f w e :
  workers st !! f = Some w → returned w = false →
  clauseErr (step st (f, Fails e)) = Some e
  ∧ chain (step st (f, Fails e)) = chain st
  ∧ workers (step st (f, Fails e)) !! f = Some (set_pc ReturnedErr w).
Proof.
  intros Hw Hr. rewrite (step_unfold _ _ _ _ Hw). cbn.
  rewrite lookup_insert_eq. unfold returned in Hr. unfold worker_step.
  destruct (w_pc w); try done; cbn; by rewrite app_nil_r.
Qed.

Lemma step_error_iff st mv :
  (clauseErr st ≠ None ↔ some_failed st) →
  (clauseErr (step st mv) ≠ None ↔ some_failed (step st mv)).
Proof.
  intros Hiff. destruct mv as [g r].
  destruct (workers st !! g) as [wg|] eqn:Hg; [|by rewrite step_absent].
  destruct (returned wg) eqn:Hr; [by rewrite (step_returned _ _ _ _ Hg)|].
  destruct r as [|e].
  - rewrite (step_unfold _ _ _ _ Hg).
    assert (Hok : (worker_step g Succeeds wg).2 = None
                  ∧ w_pc (worker_step g Succeeds wg).1.1 ≠ ReturnedErr).
    { unfold returned in Hr. unfold worker_step.
      destruct (w_pc wg); try done; cbn; split; try done.
      unfold loop_head. by case_match. }
    destruct Hok as [Hnone Hpc]. rewrite Hnone. cbn. rewrite Hiff.
    unfold some_failed. cbn. split.
    + intros (f & w & Hw & Hp). exists f, w. split; [|done].
      rewrite lookup_insert_ne; [done|]. intros ->.
      rewrite Hg in Hw. injection Hw as <-. unfold returned in Hr.
      by rewrite Hp in Hr.
    + intros (f & w & Hw & Hp). exists f, w. split; [|done].
      destruct (decide (g = f)) as [->|Hne].
      * rewrite lookup_insert_eq in Hw. injection Hw as <-. done.
      * by rewrite lookup_insert_ne in Hw.
  - destruct (step_fails st g wg e Hg Hr) as (He & _ & Hw).
    rewrite He. split; [|done]. intros _. by exists g, (set_pc ReturnedErr wg).
Qed.

Lemma start_error_iff ws :
  spawned ws →
  (clauseErr (start_state ws) ≠ None ↔ some_failed (start_state ws)).
Proof.
  intros Hsp. cbn. split; [done|]. intros (f & w & Hw & Hp).
  destruct (Hsp f w Hw) as [_ Hpc]. rewrite Hp in Hpc.
  unfold loop_head in Hpc. by case_match.
Qed.

Lemma run_error_iff sched ws :
  spawned ws →
  (clauseErr (run sched (start_state ws)) ≠ None
   ↔ some_failed (run sched (start_state ws))).
Proof.
  intros Hsp. induction sched as [|mv sched IH] using rev_ind.
  - by apply start_error_iff.
  - rewrite run_snoc. by apply step_error_iff.
Qed.

Lemma Fund_prepare_spawned c start amount ws :
  Fund_prepare c start amount = Ok ws → spawned ws.
Proof.
  unfold Fund_prepare. case_match; [done|].
  destruct (Fund_clauses start c amount) as [clauses| |]; [|done..].
  intros Hl. by destruct (launch_spawned _ _ _ Hl).
Qed.

(** C4: once the workers are launched, under every interleaving:
    a failed [Send] or [Wait] writes its error to [clauseErr] and makes
    the worker return, with nothing added to the chain; a worker that
    has returned so submits and confirms nothing more, whatever comes
    next; what the chain has recorded is never taken back; the error
    slot is non-nil exactly when some worker has failed; and once every
    worker has returned, [Fund] returns that slot. *)
Theorem Fund_worker_failure c start amount ws sched :
  Fund_prepare c start amount = Ok ws →
  (∀ f w e,
     workers (run sched (start_state ws)) !! f = Some w → returned w = false →
     clauseErr (step (run sched (start_state ws)) (f, Fails e)) = Some e
     ∧ chain (step (run sched (start_state ws)) (f, Fails e))
       = chain (run sched (start_state ws))
     ∧ workers (step (run sched (start_state ws)) (f, Fails e)) !! f
       = Some (set_pc ReturnedErr w))
  ∧ (∀ f w more,
       workers (run sched (start_state ws)) !! f = Some w →
       w_pc w = ReturnedErr →
       workers (run more (run sched (start_state ws))) !! f = Some w
       ∧ submitted_by f (chain (run more (run sched (start_state ws))))
         = submitted_by f (chain (run sched (start_state ws)))
       ∧ confirmed_by f (chain (run more (run sched (start_state ws))))
         = confirmed_by f (chain (run sched (start_state ws))))
  ∧ (∀ more,
       chain (run sched (start_state ws))
       `prefix_of` chain (run more (run sched (start_state ws))))
  ∧ (clauseErr (run sched (start_state ws)) ≠ None
     ↔ some_failed (run sched (start_state ws)))
  ∧ (all_returned (run sched (start_state ws)) = true →
     Fund c start amount sched
     = (Returns (clauseErr (run sched (start_state ws))),
        chain (run sched (start_state ws)))).
Proof.
  intros Hprep. split_and!.
  - intros f w e. apply step_fails.
  - intros f w more. apply run_failed_stays.
  - intros more. apply chain_run.
  - apply run_error_iff. by eapply Fund_prepare_spawned.
  - intros Hall. unfold Fund. by rewrite Hprep, Hall.
Qed.
End Fund_failures.

Lemma Fund_worker_failure_witness :
  @Fund go_libraries (solo 12) 10 "ff"
    [(0, Succeeds); (1, Fails "rejected"); (0, Succeeds)]
  = (Returns (Some "rejected"),
     chain (run [(0, Succeeds); (1, Fails "rejected"); (0, Succeeds)]
              (start_state solo_workers)))
  ∧ some_failed (run [(0, Succeeds); (1, Fails "rejected"); (0, Succeeds)]
                   (start_state solo_workers)).
Proof.
  pose proof (@Fund_worker_failure go_libraries (solo 12) 10 "ff" solo_workers
                [(0, Succeeds); (1, Fails "rejected"); (0, Succeeds)]) as Hthm.
  destruct Hthm as (_ & _ & _ & Hiff & Hret); [vm_compute; reflexivity|].
  split.
  - apply Hret. vm_compute. reflexivity.
  - apply Hiff. vm_compute. discriminate.
Defined.

(** ** Fund: the amount *)

Section Fund_amount.

Lemma Fund_body_parse E parse start c amount i clauses :
  fst (parse amount 16) = fst (@SetString E amount 16) →
  @Fund_body (with_SetString E parse) start c amount i clauses
  = @Fund_body E start c amount i clauses.
Proof.
  intros Hv. unfold Fund_body, with_SetString. cbn [SetString AsClause].
  by rewrite Hv.
Qed.

Lemma Fund_loop_parse E parse start c amount todo clauses :
  fst (parse amount 16) = fst (@SetString E amount 16) →
  @Fund_loop (with_SetString E parse) start c amount todo clauses
  = @Fund_loop E start c amount todo clauses.
Proof.
  intros Hv. revert clauses. induction todo as [|i todo IH]; intros clauses; [done|].
  cbn [Fund_loop]. rewrite Fund_body_parse by done.
  by destruct (Fund_body start c amount i clauses).
Qed.

Lemma Fund_loop_Err `{!Externals} start c amount todo clauses e :
  Fund_loop start c amount todo clauses = Err e →
  ∃ fundee, AsClause "transfer" fundee (fst (SetString amount 16)) = inr e.
Proof.
  revert clauses. induction todo as [|i todo IH]; intros clauses; [done|].
  cbn [Fund_loop]. destruct (Fund_body start c amount i clauses) as [cl'|e'|p] eqn:Hb.
  - apply IH.
  - intros [= ->]. unfold Fund_body in Hb.
    destruct (index (managers c) i) as [m|]; [|done].
    destruct (start =? 0); [done|].
    destruct (AsClause "transfer" (Address m) (SetString amount 16).1) eqn:Ha; [done|].
    injection Hb as ->. by exists (Address m).
  - done.
Qed.

Lemma clauseErr_step st mv e :
  clauseErr (step st mv) = Some e →
  clauseErr st = Some e ∨ mv.2 = Fails e.
Proof.
  destruct mv as [g r].
  destruct (workers st !! g) as [w|] eqn:Hw; [|rewrite step_absent by done; auto].
  rewrite (step_unfold _ _ _ _ Hw). cbn. unfold worker_step.
  destruct (w_pc w), r; cbn; auto; intros [= ->]; auto.
Qed.

Lemma clauseErr_run sched st e :
  clauseErr (run sched st) = Some e →
  clauseErr st = Some e ∨ ∃ f, (f, Fails e) ∈ sched.
Proof.
  induction sched as [|mv sched IH] using rev_ind; [auto|].
  rewrite run_snoc. intros [He|Hf]%clauseErr_step.
  - destruct (IH He) as [?|(f & Hf)]; [auto|]. right. exists f.
    apply elem_of_app. auto.
  - right. destruct mv as [f r]. cbn in Hf. subst r. exists f.
    apply elem_of_app. right. by apply list_elem_of_singleton.
Qed.

(** C9: [Fund] reads the value that [SetString] leaves and never its
    success flag.  Replacing [SetString] by any function that leaves the
    same value for [amount], whatever flag it returns, changes nothing in
    what [Fund] does; an error [Fund] returns is the start-index error,
    an error of [AsClause], or the failure of a [Send] or a [Wait]; and
    for a start index in range the clauses are built from the value left
    behind, also when the parse has failed. *)
Theorem Fund_ignores_parse_result E parse c start amount sched :
  fst (parse amount 16) = fst (@SetString E amount 16) →
  @Fund (with_SetString E parse) c start amount sched
  = @Fund E c start amount sched
  ∧ (∀ e ch,
       @Fund E c start amount sched = (Returns (Some e), ch) →
       (Z.of_nat (length (managers c)) < start
        ∧ e = "start index is greater than the number of accounts")
       ∨ (∃ fundee,
            @AsClause E "transfer" fundee (fst (@SetString E amount 16)) = inr e)
       ∨ (∃ f, (f, Fails e) ∈ sched))
  ∧ (snd (@SetString E amount 16) = false →
     0 < start ≤ Z.of_nat (length (managers c)) →
     (∀ i, start ≤ i < Z.of_nat (length (managers c)) → @fundable E c amount i) →
     ∃ clauses,
       @Fund_clauses E start c amount = Ok clauses
       ∧ ∀ f, default [] (clauses !! f)
              = @spec_assignment E start c amount (recipients start c) f).
Proof.
  intros Hv. split_and!.
  - unfold Fund, Fund_prepare, Fund_clauses. by rewrite Fund_loop_parse.
  - intros e ch. unfold Fund, Fund_prepare.
    destruct (Z.ltb_spec (Z.of_nat (length (managers c))) start) as [Hlt|Hge].
    { intros [= <-]. by left. }
    destruct (Fund_clauses start c amount) as [clauses|e'|p] eqn:Hc.
    + unfold launch. case_decide; [|done].
      case_match; [|done]. intros [= He _]. right. right.
      apply clauseErr_run in He as [He|He]; [done|done].
    + intros [= -> _]. right. left. by eapply Fund_loop_Err.
    + done.
  - intros _ [Hs HN] Hfund.
    destruct (@Fund_loop_fundable E start c amount (recipients start c) ∅)
      as (clauses & Hrun & Hseq & _); [lia| |].
    { apply Forall_forall. intros i Hi. apply Hfund.
      unfold recipients in Hi. apply elem_of_seqZ in Hi. lia. }
    exists clauses. split; [done|]. intros f. by rewrite Hseq, lookup_empty.
Qed.
End Fund_amount.

Lemma Fund_ignores_parse_result_witness :
  snd (big_SetString "12xyz" 16) = false
  ∧ @Fund (with_SetString go_libraries (λ s base, (fst (big_SetString s base), true)))
      (solo 12) 10 "12xyz" [(0, Succeeds); (0, Succeeds)]
    = @Fund go_libraries (solo 12) 10 "12xyz" [(0, Succeeds); (0, Succeeds)].
Proof.
  split; [reflexivity|].
  apply (Fund_ignores_parse_result go_libraries
           (λ s base, (fst (big_SetString s base), true))
           (solo 12) 10 "12xyz" [(0, Succeeds); (0, Succeeds)]).
  reflexivity.
Defined.

(** ** The poller: one tick *)

Section poll_tick.
Context `{!Externals}.
Local Open Scope N_scope.

Lemma poll_tick_error c inp prev sh :
  best inp = None → poll_tick c inp prev sh = (prev, sh).
Proof. intros Hb. unfold poll_tick. by rewrite Hb. Qed.

Lemma poll_tick_not_greater c inp prev sh block :
  best inp = Some block → Number block ≤ Number prev →
  poll_tick c inp prev sh = (prev, sh).
Proof.
  intros Hb Hle. unfold poll_tick. rewrite Hb.
  destruct (N.ltb_spec (Number prev) (Number block)); [lia|done].
Qed.

Lemma poll_tick_no_vu c inp prev sh block :
  best inp = Some block → Number prev < Number block → vu_ready inp = false →
  poll_tick c inp prev sh = (block, sh).
Proof.
  intros Hb Hlt Hvu. unfold poll_tick. rewrite Hb, Hvu.
  destruct (N.ltb_spec (Number prev) (Number block)); [done|lia].
Qed.

Lemma poll_tick_duplicate c inp prev sh block :
  best inp = Some block → Number prev < Number block → vu_ready inp = true →
  dedup_key c block ∈ blocks sh →
  poll_tick c inp prev sh = (block, sh).
Proof.
  intros Hb Hlt Hvu Hin. unfold poll_tick. rewrite Hb, Hvu.
  destruct (N.ltb_spec (Number prev) (Number block)); [|lia].
  by rewrite decide_True.
Qed.

Lemma poll_tick_fresh c inp prev sh block :
  best inp = Some block → Number prev < Number block → vu_ready inp = true →
  dedup_key c block ∉ blocks sh →
  poll_tick c inp prev sh
  = (block,
     {| blocks := {[dedup_key c block]} ∪ blocks sh;
        sink := PushIfNotDone (ctx_done inp) (sink sh)
                  {| endpoint := opts_URL c;
                     block_number := Number block;
                     Samples := block_samples prev block (now inp) |} |}).
Proof.
  intros Hb Hlt Hvu Hin. unfold poll_tick. rewrite Hb, Hvu.
  destruct (N.ltb_spec (Number prev) (Number block)); [|lia].
  by rewrite decide_False.
Qed.

(** The five ways a tick can go. *)
Lemma poll_tick_cases c inp prev sh :
  poll_tick c inp prev sh = (prev, sh)
  ∨ ∃ block,
      best inp = Some block ∧ Number prev < Number block
      ∧ (poll_tick c inp prev sh = (block, sh)
         ∨ (vu_ready inp = true ∧ (dedup_key c block ∉ blocks sh)
            ∧ poll_tick c inp prev sh
              = (block,
                 {| blocks := {[dedup_key c block]} ∪ blocks sh;
                    sink := PushIfNotDone (ctx_done inp) (sink sh)
                              {| endpoint := opts_URL c;
                                 block_number := Number block;
                                 Samples := block_samples prev block (now inp) |} |}))).
Proof.
  destruct (best inp) as [block|] eqn:Hb; [|left; by apply poll_tick_error].
  destruct (N.ltb_spec (Number prev) (Number block)) as [Hlt|Hge];
    [|left; by eapply poll_tick_not_greater].
  right. exists block. split; [done|]. split; [done|].
  destruct (vu_ready inp) eqn:Hvu; [|left; by apply poll_tick_no_vu].
  destruct (decide (dedup_key c block ∈ blocks sh)) as [Hin|Hout].
  - left. by apply poll_tick_duplicate.
  - right. split; [done|]. split; [done|]. by apply poll_tick_fresh.
Qed.

Lemma FormatUint_inj n m : FormatUint n = FormatUint m → n = m.
Proof. unfold FormatUint. apply (inj pretty). Qed.

Lemma dedup_key_inj c b1 b2 :
  dedup_key c b1 = dedup_key c b2 → Number b1 = Number b2.
Proof.
  unfold dedup_key. intros Hk. apply FormatUint_inj.
  by apply (inj (String.app (opts_URL c))) in Hk.
Qed.

(** C5 (amended): on a tick that reads a strictly greater block number
    while the VU state is available, the key is the endpoint followed by
    the decimal block number; the test and the insertion are one step on
    the registry; if the key is there the tick changes nothing but the
    stored block; otherwise the key is added and the group of four
    samples is handed to [PushIfNotDone]. *)
Theorem poll_tick_dedup c inp prev sh block :
  best inp = Some block → Number prev < Number block → vu_ready inp = true →
  dedup_key c block = opts_URL c +:+ FormatUint (Number block)
  ∧ (∀ n m, FormatUint n = FormatUint m → n = m)
  ∧ (dedup_key c block ∈ blocks sh → poll_tick c inp prev sh = (block, sh))
  ∧ (dedup_key c block ∉ blocks sh →
     (poll_tick c inp prev sh).1 = block
     ∧ blocks (poll_tick c inp prev sh).2 = {[dedup_key c block]} ∪ blocks sh
     ∧ sink (poll_tick c inp prev sh).2
       = PushIfNotDone (ctx_done inp) (sink sh)
           {| endpoint := opts_URL c;
              block_number := Number block;
              Samples := block_samples prev block (now inp) |}
     ∧ length (block_samples prev block (now inp)) = 4%nat).
Proof.
  intros Hb Hlt Hvu. split_and!.
  - done.
  - apply FormatUint_inj.
  - by apply poll_tick_duplicate.
  - intros Hout. by rewrite (poll_tick_fresh c inp prev sh block).
Qed.

Lemma poll_tick_later c inp prev sh n :
  n ≤ Number prev →
  n ≤ Number (fst (poll_tick c inp prev sh))
  ∧ (opts_URL c +:+ FormatUint n ∈ blocks (poll_tick c inp prev sh).2
     ↔ opts_URL c +:+ FormatUint n ∈ blocks sh)
  ∧ groups_for (opts_URL c) n (sink (poll_tick c inp prev sh).2)
    = groups_for (opts_URL c) n (sink sh).
Proof.
  intros Hle.
  destruct (poll_tick_cases c inp prev sh)
    as [-> | (b' & Hb' & Hlt' & [-> | (Hvu' & Hout & ->)])]; cbn [fst snd].
  - done.
  - split; [lia|done].
  - split; [lia|]. cbn [blocks sink]. split.
    + rewrite elem_of_union, elem_of_singleton. split; [|auto].
      intros [Hk|?]; [|done]. unfold dedup_key in Hk.
      apply (inj (String.app (opts_URL c))), FormatUint_inj in Hk. lia.
    + unfold PushIfNotDone. destruct (ctx_done inp); [done|].
      unfold groups_for. rewrite filter_app, filter_cons_False, app_nil_r; [done|].
      cbn. intros [_ Hn]. lia.
Qed.

Lemma poll_ticks_later c inps prev sh n :
  n ≤ Number prev →
  n ≤ Number (fst (poll_ticks c inps prev sh))
  ∧ (opts_URL c +:+ FormatUint n ∈ blocks (poll_ticks c inps prev sh).2
     ↔ opts_URL c +:+ FormatUint n ∈ blocks sh)
  ∧ groups_for (opts_URL c) n (sink (poll_ticks c inps prev sh).2)
    = groups_for (opts_URL c) n (sink sh).
Proof.
  revert prev sh. induction inps as [|inp inps IH]; intros prev sh Hle; [done|].
  cbn [poll_ticks].
  destruct (poll_tick_later c inp prev sh n Hle) as (Hle1 & Hk1 & Hg1).
  destruct (poll_tick c inp prev sh) as [prev1 sh1]. cbn [fst snd] in *.
  destruct (IH prev1 sh1 Hle1) as (Hle2 & Hk2 & Hg2).
  split; [done|]. split; [by rewrite Hk2|by rewrite Hg2].
Qed.

(** C10: on a tick that reads a strictly greater block number while the
    VU state is not available, the stored block is replaced and the
    registry and the channel stay as they are.  From then on no tick of
    this poller, whatever the others have done in between, adds the key
    of that block or pushes a group for it; so the poller alone, over
    any further ticks, leaves that key as it found it. *)
Theorem poll_tick_without_vu c inp prev sh block :
  best inp = Some block → Number prev < Number block → vu_ready inp = false →
  poll_tick c inp prev sh = (block, sh)
  ∧ (∀ inp' prev' sh',
       Number block ≤ Number prev' →
       Number block ≤ Number (fst (poll_tick c inp' prev' sh'))
       ∧ (dedup_key c block ∈ blocks (poll_tick c inp' prev' sh').2
          ↔ dedup_key c block ∈ blocks sh')
       ∧ groups_for (opts_URL c) (Number block) (sink (poll_tick c inp' prev' sh').2)
         = groups_for (opts_URL c) (Number block) (sink sh'))
  ∧ (∀ inps,
       (dedup_key c block ∈ blocks (poll_ticks c inps block sh).2
        ↔ dedup_key c block ∈ blocks sh)
       ∧ groups_for (opts_URL c) (Number block) (sink (poll_ticks c inps block sh).2)
         = groups_for (opts_URL c) (Number block) (sink sh)).
Proof.
  intros Hb Hlt Hvu. split; [by apply poll_tick_no_vu|]. split.
  - intros inp' prev' sh' Hle. by apply poll_tick_later.
  - intros inps.
    destruct (poll_ticks_later c inps block sh (Number block)) as (_ & Hk & Hg);
      [lia|done].
Qed.

Lemma stored_sorted c inps prev sh :
  Forall (λ b, Number prev < Number b) (stored c inps prev sh)
  ∧ StronglySorted (λ a b, Number a < Number b) (stored c inps prev sh)
  ∧ Number prev ≤ Number (fst (poll_ticks c inps prev sh))
  ∧ (poll_ticks c inps prev sh).1 = default prev (last (stored c inps prev sh)).
Proof.
  revert prev sh. induction inps as [|inp inps IH]; intros prev sh.
  { cbn. split_and!; [constructor|constructor|lia|done]. }
  cbn [stored poll_ticks].
  assert (Hstep : (poll_tick c inp prev sh).1 = prev
                  ∨ Number prev < Number (fst (poll_tick c inp prev sh))).
  { destruct (poll_tick_cases c inp prev sh)
      as [-> | (b' & Hb' & Hlt' & [-> | (_ & _ & ->)])]; cbn; auto. }
  destruct (poll_tick c inp prev sh) as [prev1 sh1]. cbn [fst snd] in *.
  destruct (IH prev1 sh1) as (Hall & Hsorted & Hle & Hlast).
  destruct (N.ltb_spec (Number prev) (Number prev1)) as [Hlt|Hge].
  - cbn [app]. split_and!.
    + constructor; [done|]. eapply Forall_impl; [exact Hall|]. cbn. lia.
    + by constructor.
    + lia.
    + rewrite Hlast, last_cons. by destruct (last (stored c inps prev1 sh1)).
  - destruct Hstep as [->|Hlt]; [|lia]. done.
Qed.

(** C7: a poller has one stored previous block.  A tick replaces it by
    the block it reads exactly when that block's number is strictly
    greater, and otherwise (a failed read, an equal or a smaller number)
    changes nothing at all, so nothing is pushed when the number read
    equals the stored one.  Over any ticks the blocks stored in turn have
    strictly increasing numbers, all above the one the poller started
    with, and the block stored at the end is the last of them. *)
Theorem poller_prev_increases c inps prev sh :
  (∀ inp,
     match best inp with
     | Some block =>
       if Number prev <? Number block
       then (poll_tick c inp prev sh).1 = block
       else poll_tick c inp prev sh = (prev, sh)
     | None => poll_tick c inp prev sh = (prev, sh)
     end)
  ∧ (∀ inp block,
       best inp = Some block → Number block = Number prev →
       poll_tick c inp prev sh = (prev, sh))
  ∧ StronglySorted N.lt (Number prev :: (Number <$> stored c inps prev sh))
  ∧ (poll_ticks c inps prev sh).1 = default prev (last (stored c inps prev sh)).
Proof.
  split_and!.
  - intros inp. destruct (best inp) as [block|] eqn:Hb; [|by apply poll_tick_error].
    destruct (N.ltb_spec (Number prev) (Number block)) as [Hlt|Hge].
    + destruct (poll_tick_cases c inp prev sh)
        as [Heq | (b' & Hb' & Hlt' & [Heq | (_ & _ & Heq)])].
      * exfalso. unfold poll_tick in Heq. rewrite Hb in Heq.
        destruct (N.ltb_spec (Number prev) (Number block)); [|lia].
        destruct (vu_ready inp); [case_decide|];
          apply (f_equal fst) in Heq; cbn in Heq; subst; lia.
      * rewrite Heq. cbn. congruence.
      * rewrite Heq. cbn. congruence.
    + by eapply poll_tick_not_greater.
  - intros inp block Hb Heq. eapply poll_tick_not_greater; [done|lia].
  - destruct (stored_sorted c inps prev sh) as (Hall & Hsorted & _).
    constructor.
    + by apply (StronglySorted_fmap Number (λ a b, Number a < Number b)).
    + by apply Forall_fmap.
  - by destruct (stored_sorted c inps prev sh) as (_ & _ & _ & ?).
Qed.
End poll_tick.

(** ** The pollers of a process under every interleaving *)

Section dedup.
Context `{!Externals}.

Lemma filter_same_key {A B} (f : A → B) (P : A → Prop) `{!∀ x, Decision (P x)}
    (l : list A) (k : B) :
  NoDup (f <$> l) → (∀ x, P x → f x = k) → (length (filter P l) ≤ 1)%nat.
Proof.
  intros Hnd Hk. induction l as [|a l IH]; [cbn; lia|].
  rewrite fmap_cons in Hnd. apply NoDup_cons in Hnd as [Ha Hnd].
  destruct (decide (P a)) as [HPa|HPa].
  - rewrite filter_cons_True by done.
    destruct (filter P l) as [|x l'] eqn:Hf; [cbn; lia|]. exfalso.
    assert (Hx : x ∈ filter P l) by (rewrite Hf; left).
    apply list_elem_of_filter in Hx as [HPx Hx]. apply Ha.
    rewrite (Hk a HPa), <-(Hk x HPx). by apply list_elem_of_fmap_2.
  - rewrite filter_cons_False by done. by apply IH.
Qed.

Lemma groups_for_at_most_one url n sh :
  dedup_inv sh → (length (groups_for url n (sink sh)) ≤ 1)%nat.
Proof.
  intros [Hnd _]. unfold groups_for.
  apply (filter_same_key group_key _ _ (url +:+ FormatUint n)); [done|].
  intros g [Hu Hn]. unfold group_key. by rewrite Hu, Hn.
Qed.

Lemma process_start_inv url : dedup_inv process_start ∧ recorded_inv url process_start.
Proof.
  split.
  - split; [constructor|]. intros g Hg. by apply elem_of_nil in Hg.
  - intros n. cbn. split; [set_solver|]. intros (g & Hg & _).
    by apply elem_of_nil in Hg.
Qed.

Lemma poll_tick_dedup_inv c inp prev sh :
  dedup_inv sh → dedup_inv (poll_tick c inp prev sh).2.
Proof.
  intros [Hnd Hin].
  destruct (poll_tick_cases c inp prev sh)
    as [-> | (block & Hb & Hlt & [-> | (Hvu & Hout & ->)])]; [done..|].
  cbn [snd]. unfold dedup_inv, PushIfNotDone. cbn [sink blocks].
  destruct (ctx_done inp).
  - split; [done|]. intros g Hg. pose proof (Hin g Hg) as [? ?].
    split; [apply elem_of_union; by right|done].
  - split.
    + rewrite fmap_app. apply NoDup_app. split_and!; [done| |apply NoDup_singleton].
      intros k Hk Hk0. apply list_elem_of_fmap in Hk as (g & -> & Hg).
      apply list_elem_of_singleton in Hk0. pose proof (Hin g Hg) as [Hreg _].
      apply Hout. unfold dedup_key. unfold group_key in Hk0 at 2. cbn in Hk0.
      by rewrite <-Hk0.
    + intros g [Hg | ->%list_elem_of_singleton]%elem_of_app.
      * pose proof (Hin g Hg) as [? ?]. split; [apply elem_of_union; by right|done].
      * split; [|done]. unfold group_key, dedup_key. cbn.
        apply elem_of_union. left. by apply elem_of_singleton.
Qed.

Lemma poll_tick_recorded_inv url c inp prev sh :
  opts_URL c = url → ctx_done inp = false →
  recorded_inv url sh → recorded_inv url (poll_tick c inp prev sh).2.
Proof.
  intros Hurl Hdone Hrec.
  destruct (poll_tick_cases c inp prev sh)
    as [-> | (block & Hb & Hlt & [-> | (Hvu & Hout & ->)])]; [done..|].
  cbn [snd]. unfold PushIfNotDone. rewrite Hdone. intros n. cbn [sink blocks].
  rewrite elem_of_union, elem_of_singleton, (Hrec n). unfold dedup_key.
  rewrite Hurl. split.
  - intros [Hk | (g & Hg & Hu & Hn)].
    + apply (inj (String.app url)), FormatUint_inj in Hk. subst n.
      eexists. split; [apply elem_of_app; right; by apply list_elem_of_singleton|].
      done.
    + exists g. split; [apply elem_of_app; by left|done].
  - intros (g & [Hg | ->%list_elem_of_singleton]%elem_of_app & Hu & Hn).
    + right. by exists g.
    + left. cbn in Hn. by rewrite Hn.
Qed.

Lemma poll_step_inv st mv :
  dedup_inv (common st) → dedup_inv (common (poll_step st mv)).
Proof.
  intros Hinv. unfold poll_step.
  destruct (pollers st !! mv.1) as [[|c prev]|]; [done| |done].
  pose proof (poll_tick_dedup_inv c mv.2 prev (common st) Hinv) as Hinv'.
  by destruct (poll_tick c mv.2 prev (common st)).
Qed.

Lemma poll_step_recorded url st mv :
  Forall (polls url) (pollers st) → ctx_done mv.2 = false →
  recorded_inv url (common st) →
  Forall (polls url) (pollers (poll_step st mv))
  ∧ recorded_inv url (common (poll_step st mv)).
Proof.
  intros Hps Hdone Hrec. unfold poll_step.
  destruct (pollers st !! mv.1) as [[|c prev]|] eqn:Hp; [done| |done].
  assert (Hurl : opts_URL c = url).
  { apply (Forall_lookup_1 _ _ _ _ Hps) in Hp. exact Hp. }
  pose proof (poll_tick_recorded_inv url c mv.2 prev (common st) Hurl Hdone Hrec)
    as Hrec'.
  destruct (poll_tick c mv.2 prev (common st)) as [prev' sh']. cbn.
  split; [|done]. by apply Forall_insert.
Qed.

Lemma poll_run_snoc sched mv st :
  poll_run (sched ++ [mv]) st = poll_step (poll_run sched st) mv.
Proof. unfold poll_run. by rewrite foldl_app. Qed.

Lemma poll_run_inv sched st :
  dedup_inv (common st) → dedup_inv (common (poll_run sched st)).
Proof.
  intros Hinv. induction sched as [|mv sched IH] using rev_ind; [done|].
  rewrite poll_run_snoc. by apply poll_step_inv.
Qed.

Lemma poll_run_recorded url sched st :
  Forall (polls url) (pollers st) →
  Forall (λ mv, ctx_done mv.2 = false) sched →
  recorded_inv url (common st) →
  Forall (polls url) (pollers (poll_run sched st))
  ∧ recorded_inv url (common (poll_run sched st)).
Proof.
  intros Hps Hdone Hrec. induction sched as [|mv sched IH] using rev_ind; [done|].
  apply Forall_app in Hdone as [Hdone Hmv]. apply Forall_inv in Hmv.
  destruct (IH Hdone) as [Hps' Hrec']. rewrite poll_run_snoc.
  apply poll_step_recorded; [done|exact Hmv|done].
Qed.

Lemma groups_for_exactly_one url n sh :
  dedup_inv sh → recorded_inv url sh →
  length (groups_for url n (sink sh)) = 1%nat ↔ url +:+ FormatUint n ∈ blocks sh.
Proof.
  intros Hinv Hrec. rewrite (Hrec n). split.
  - intros Hlen. destruct (groups_for url n (sink sh)) as [|g l] eqn:Hg; [done|].
    assert (Hin : g ∈ groups_for url n (sink sh)) by (rewrite Hg; left).
    apply list_elem_of_filter in Hin as [[Hu Hn] Hin]. by exists g.
  - intros (g & Hg & Hu & Hn).
    assert (Hin : g ∈ groups_for url n (sink sh)).
    { apply list_elem_of_filter. done. }
    pose proof (groups_for_at_most_one url n sh Hinv) as Hle.
    destruct (groups_for url n (sink sh)); [by apply elem_of_nil in Hin|].
    cbn in *. lia.
Qed.

Lemma poll_tick_registers c inp prev sh block :
  best inp = Some block → (Number prev < Number block)%N → vu_ready inp = true →
  dedup_key c block ∈ blocks (poll_tick c inp prev sh).2.
Proof.
  intros Hb Hlt Hvu. destruct (decide (dedup_key c block ∈ blocks sh)) as [Hin|Hout].
  - by rewrite (poll_tick_duplicate c inp prev sh block).
  - rewrite (poll_tick_fresh c inp prev sh block) by done. cbn.
    apply elem_of_union. left. by apply elem_of_singleton.
Qed.

Lemma poll_tick_blocks_grow c inp prev sh :
  blocks sh ⊆ blocks (poll_tick c inp prev sh).2.
Proof.
  destruct (poll_tick_cases c inp prev sh)
    as [-> | (block & Hb & Hlt & [-> | (Hvu & Hout & ->)])]; [done..|].
  cbn. apply union_subseteq_r.
Qed.

Lemma poll_step_blocks_grow st mv :
  blocks (common st) ⊆ blocks (common (poll_step st mv)).
Proof.
  unfold poll_step. destruct (pollers st !! mv.1) as [[|c prev]|]; [done| |done].
  pose proof (poll_tick_blocks_grow c mv.2 prev (common st)) as Hsub.
  by destruct (poll_tick c mv.2 prev (common st)).
Qed.

Lemma poll_run_blocks_grow more st :
  blocks (common st) ⊆ blocks (common (poll_run more st)).
Proof.
  induction more as [|mv more IH] using rev_ind; [done|].
  rewrite poll_run_snoc. etrans; [exact IH|apply poll_step_blocks_grow].
Qed.

(** C6 (amended): from the start of a process, for every number of
    pollers and every interleaving of their ticks, the channel holds at
    most one group for an endpoint and a block number, every group holds
    four samples and its key is in the registry.  When all pollers share
    the endpoint and no push is dropped by a finished context, the
    channel holds exactly one group for a block number if and only if
    its key is in the registry.  A tick that reads a strictly greater
    block number while the VU state is available leaves the key of the
    block in the registry, and a key in the registry stays there. *)
Theorem dedup_at_most_one_group ps sched url n :
  (length (groups_for url n
     (sink (common (poll_run sched {| pollers := ps; common := process_start |}))))
   ≤ 1)%nat
  ∧ (∀ g,
       g ∈ sink (common (poll_run sched {| pollers := ps; common := process_start |})) →
       length (Samples g) = 4%nat
       ∧ group_key g
         ∈ blocks (common (poll_run sched {| pollers := ps; common := process_start |})))
  ∧ (Forall (polls url) ps → Forall (λ mv, ctx_done mv.2 = false) sched →
     length (groups_for url n
       (sink (common (poll_run sched {| pollers := ps; common := process_start |}))))
     = 1%nat
     ↔ url +:+ FormatUint n
       ∈ blocks (common (poll_run sched {| pollers := ps; common := process_start |})))
  ∧ (∀ j c prev inp block more,
       pollers (poll_run sched {| pollers := ps; common := process_start |}) !! j
       = Some (Polling c prev) →
       best inp = Some block → (Number prev < Number block)%N →
       vu_ready inp = true →
       dedup_key c block
       ∈ blocks (common (poll_run more
           (poll_step (poll_run sched {| pollers := ps; common := process_start |})
              (j, inp))))).
Proof.
  destruct (process_start_inv url) as [Hd Hr].
  pose proof (poll_run_inv sched {| pollers := ps; common := process_start |} Hd)
    as Hinv.
  split_and!.
  - by apply groups_for_at_most_one.
  - intros g Hg. destruct Hinv as [_ Hin]. pose proof (Hin g Hg) as [? ?]. done.
  - intros Hps Hdone.
    destruct (poll_run_recorded url sched {| pollers := ps; common := process_start |}
                Hps Hdone Hr) as [_ Hrec].
    by apply groups_for_exactly_one.
  - intros j c prev inp block more Hj Hb Hlt Hvu.
    apply poll_run_blocks_grow. unfold poll_step. cbn [fst snd]. rewrite Hj.
    pose proof (poll_tick_registers c inp prev
      (common (poll_run sched {| pollers := ps; common := process_start |}))
      block Hb Hlt Hvu) as Hreg.
    by destruct (poll_tick c inp prev
      (common (poll_run sched {| pollers := ps; common := process_start |}))).
Qed.
End dedup.

(** ** The poller: elapsed time and throughput *)

Section tps.
Context `{!Externals}.

Lemma int64_small z : 0 ≤ z < 2 ^ 63 → int64 z = z.
Proof. intros Hz. unfold int64. rewrite Z.mod_small; lia. Qed.

Lemma Unix_Sub_in_range t u :
  - 9223372036 ≤ t - u ≤ 9223372036 → Unix_Sub t u = (t - u) * Second.
Proof.
  intros Hd. unfold Unix_Sub, maxDuration, minDuration, Second.
  destruct (Z.ltb_spec (2 ^ 63 - 1) ((t - u) * 1000000000)); [lia|].
  destruct (Z.ltb_spec ((t - u) * 1000000000) (- 2 ^ 63)); [lia|done].
Qed.

Lemma Seconds_whole z :
  Seconds (z * Second) = (float64_of_int64 z + 0)%float.
Proof.
  unfold Seconds. rewrite Z.quot_mul, Z.rem_mul by done. reflexivity.
Qed.

(** C8: when both timestamps are below [2^63] and less than
    9223372036 seconds apart, so that neither the conversion to a signed
    integer nor the duration overflows, the elapsed time is
    [timestamp(new) - timestamp(previous)] seconds, [tps] is the number
    of transactions of the new block divided by it in floating point
    (the [+ 0] is the nanosecond part that [Seconds] adds, here zero),
    and this is the value of the third sample.  For a previous block at
    timestamp 100 and a new block at timestamp 105 with 20 transactions,
    [tps] is 4.0; for equal timestamps and 20 transactions it is
    infinite. *)
Theorem tps_is_transactions_per_second :
  (∀ prev block,
     (Timestamp prev < 2 ^ 63)%N → (Timestamp block < 2 ^ 63)%N →
     - 9223372036 ≤ Z.of_N (Timestamp block) - Z.of_N (Timestamp prev)
       ≤ 9223372036 →
     blockTimestampDiff prev block
     = (Z.of_N (Timestamp block) - Z.of_N (Timestamp prev)) * Second
     ∧ tps prev block
       = (float64_of_int64 (Z.of_nat (length (Transactions block)))
          / (float64_of_int64
               (Z.of_N (Timestamp block) - Z.of_N (Timestamp prev)) + 0))%float
     ∧ ∀ now,
         (Sample_Metric <$> block_samples prev block now) !! 2%nat
         = Some vechain_tps
         ∧ (Sample_Value <$> block_samples prev block now) !! 2%nat
           = Some (tps prev block))
  ∧ tps (block_of 7 100 5) (block_of 8 105 20) = 4%float
  ∧ tps (block_of 7 100 5) (block_of 8 100 20) = infinity.
Proof.
  split_and!; [|reflexivity..].
  intros prev block Hp Hb Hd.
  assert (Hdiff : blockTimestampDiff prev block
                  = (Z.of_N (Timestamp block) - Z.of_N (Timestamp prev)) * Second).
  { unfold blockTimestampDiff. rewrite !int64_small by lia.
    by apply Unix_Sub_in_range. }
  split_and!; [done| |done].
  unfold tps. by rewrite Hdiff, Seconds_whole.
Qed.
End tps.

Lemma tps_is_transactions_per_second_witness :
  blockTimestampDiff (block_of 7 100 5) (block_of 8 105 20) = 5 * Second
  ∧ tps (block_of 7 100 5) (block_of 8 105 20)
    = (float64_of_int64 20 / (float64_of_int64 5 + 0))%float.
Proof.
  destruct (proj1 (@tps_is_transactions_per_second go_libraries)
              (block_of 7 100 5) (block_of 8 105 20)) as (Hd & Ht & _);
    [reflexivity | reflexivity | cbn; lia |].
  split; [exact Hd | exact Ht].
Defined.

(** ** The poller on concrete ticks *)

Lemma poll_tick_dedup_witness :
  dedup_key (solo 1) (block_of 8 105 20) = "http://localhost:86698"
  ∧ length (sink (@poll_tick go_libraries (solo 1)
                    (reads (block_of 8 105 20) true false)
                    (block_of 7 100 5) process_start).2) = 1%nat.
Proof.
  destruct (@poll_tick_dedup go_libraries (solo 1)
              (reads (block_of 8 105 20) true false)
              (block_of 7 100 5) process_start (block_of 8 105 20))
    as (Hk & _ & _ & Hfresh); [reflexivity..|].
  destruct Hfresh as (_ & _ & Hsink & _); [apply not_elem_of_empty|].
  split; [rewrite Hk; reflexivity | rewrite Hsink; reflexivity].
Defined.

Lemma poll_tick_dedup_counterexample :
  best (reads (block_of 8 105 20) false false) = Some (block_of 8 105 20)
  ∧ (Number (block_of 7 100 5) < Number (block_of 8 105 20))%N
  ∧ (dedup_key (solo 1) (block_of 8 105 20) ∉ blocks process_start)
  ∧ (dedup_key (solo 1) (block_of 8 105 20)
     ∉ blocks (@poll_tick go_libraries (solo 1)
                 (reads (block_of 8 105 20) false false)
                 (block_of 7 100 5) process_start).2)
  ∧ sink (@poll_tick go_libraries (solo 1)
            (reads (block_of 8 105 20) false false)
            (block_of 7 100 5) process_start).2 = [].
Proof.
  rewrite (@poll_tick_no_vu go_libraries (solo 1) _ _ _ (block_of 8 105 20))
    by reflexivity.
  split_and!; [reflexivity..|apply not_elem_of_empty|apply not_elem_of_empty|reflexivity].
Qed.

Lemma dedup_at_most_one_group_counterexample :
  pollers (@poll_run go_libraries [(0%nat, reads (block_of 8 105 20) false false)]
             {| pollers := [Polling (solo 1) (block_of 7 100 5)];
                common := process_start |})
  = [Polling (solo 1) (block_of 8 105 20)]
  ∧ length (groups_for "http://localhost:8669" 8
      (sink (common
         (@poll_run go_libraries [(0%nat, reads (block_of 8 105 20) false false)]
            {| pollers := [Polling (solo 1) (block_of 7 100 5)];
               common := process_start |})))) = 0%nat
  ∧ length (groups_for "http://localhost:8669" 8
      (sink (common
         (@poll_run go_libraries
            [(0%nat, reads (block_of 8 105 20) true true);
             (1%nat, reads (block_of 8 105 20) true false)]
            {| pollers := [Polling (solo 1) (block_of 7 100 5);
                           Polling (solo 1) (block_of 7 100 5)];
               common := process_start |})))) = 0%nat.
Proof. split_and!; vm_compute; reflexivity. Qed.

Lemma poll_tick_without_vu_witness :
  @poll_tick go_libraries (solo 1) (reads (block_of 8 105 20) false false)
    (block_of 7 100 5) process_start
  = (block_of 8 105 20, process_start)
  ∧ (dedup_key (solo 1) (block_of 8 105 20)
     ∉ blocks (@poll_ticks go_libraries (solo 1)
                 [reads (block_of 8 105 20) true false;
                  reads (block_of 9 110 3) true false]
                 (block_of 8 105 20) process_start).2).
Proof.
  destruct (@poll_tick_without_vu go_libraries (solo 1)
              (reads (block_of 8 105 20) false false)
              (block_of 7 100 5) process_start (block_of 8 105 20))
    as (Htick & _ & Hlater); [reflexivity..|].
  split; [exact Htick|].
  intros Hin. apply Hlater in Hin. by apply not_elem_of_empty in Hin.
Defined.

Example stored_blocks :
  Number <$> @stored go_libraries (solo 1)
    [reads (block_of 8 105 20) false false;
     reads (block_of 8 105 20) true false;
     reads (block_of 7 100 5) true false;
     reads (block_of 9 110 3) true false]
    (block_of 7 100 5) process_start
  = [8; 9]%N.
Proof. vm_compute. reflexivity. Qed.

(** ** Fund: from the call to the return *)

Section Fund_returns.
Context `{!Externals}.

(** With a start index in range and buildable clauses the workers are
    launched, one per funder that has recipients, each with the clause
    sequence of its funder. *)
Lemma Fund_prepare_launches c start amount :
  0 < start ≤ Z.of_nat (length (managers c)) →
  (∀ i, start ≤ i < Z.of_nat (length (managers c)) → fundable c amount i) →
  ∃ clauses ws,
    Fund_clauses start c amount = Ok clauses
    ∧ Fund_prepare c start amount = Ok ws
    ∧ ∀ f, w_clauses <$> ws !! f = clauses !! f.
Proof.
  intros [Hs HN] Hfund.
  destruct (Fund_loop_fundable start c amount (recipients start c) ∅)
    as (clauses & Hrun & _ & Hdom); [lia| |].
  { apply Forall_forall. intros i Hi. apply Hfund.
    unfold recipients in Hi. apply elem_of_seqZ in Hi. lia. }
  assert (Hidx : ∀ f, is_Some (clauses !! f) → is_Some (index (managers c) f)).
  { intros f [[? ?]|(i & Hi & <-)]%Hdom; [by rewrite lookup_empty in *|].
    apply index_Some. pose proof (Z.mod_pos_bound i start). lia. }
  assert (Hlook : ∀ f,
    w_clauses <$>
      map_imap (λ f cl, (λ m, spawn m cl) <$> index (managers c) f) clauses !! f
    = clauses !! f).
  { intros f. rewrite map_lookup_imap.
    destruct (clauses !! f) as [cl|] eqn:Hf; [|done]. cbn.
    destruct (Hidx f) as [m Hm]; [by rewrite Hf|]. by rewrite Hm. }
  exists clauses. eexists. split; [exact Hrun|].
  unfold Fund_prepare. unfold Fund_clauses in Hrun. fold (Fund_clauses start c amount).
  destruct (Z.ltb_spec (Z.of_nat (length (managers c))) start); [lia|].
  unfold Fund_clauses. rewrite Hrun. unfold launch.
  rewrite decide_True; [split; [reflexivity|exact Hlook]|].
  apply set_eq. intros f. rewrite !elem_of_dom, <-(Hlook f).
  by rewrite fmap_is_Some.
Qed.

Lemma step_returned_stays st mv f w :
  workers st !! f = Some w → returned w = true →
  workers (step st mv) !! f = Some w.
Proof.
  intros Hw Hr. destruct mv as [g r]. destruct (decide (g = f)) as [->|Hne].
  { by rewrite (step_returned _ _ _ _ Hw). }
  destruct (workers st !! g) as [wg|] eqn:Hg; [|by rewrite step_absent].
  rewrite (step_unfold _ _ _ _ Hg). cbn. by rewrite lookup_insert_ne.
Qed.

Lemma step_present st mv f :
  is_Some (workers st !! f) → is_Some (workers (step st mv) !! f).
Proof.
  intros Hf. destruct mv as [g r].
  destruct (workers st !! g) as [wg|] eqn:Hg; [|by rewrite step_absent].
  rewrite (step_unfold _ _ _ _ Hg). cbn.
  destruct (decide (g = f)) as [->|Hne].
  - rewrite lookup_insert_eq. by eexists.
  - by rewrite lookup_insert_ne.
Qed.

Lemma run_returned_stays more st f w :
  workers st !! f = Some w → returned w = true →
  workers (run more st) !! f = Some w.
Proof.
  revert st. induction more as [|mv more IH]; intros st Hw Hr; [done|].
  rewrite run_cons. apply IH; [|done]. by apply step_returned_stays.
Qed.

End Fund_returns.

Lemma Fund_start_too_large_witness :
  @Fund go_libraries (solo 3) 4 "ff" [(0, Succeeds)]
  = (Returns (Some "start index is greater than the number of accounts"), []).
Proof. apply (@Fund_start_too_large go_libraries (solo 3) 4 "ff"). cbn. lia. Defined.

Example three_pollers_one_group :
  length (groups_for "http://localhost:8669" 8
    (sink (common
       (@poll_run go_libraries
          [(0%nat, reads (block_of 8 105 20) false false);
           (2%nat, reads (block_of 8 105 20) true false);
           (1%nat, reads (block_of 8 105 20) true false);
           (2%nat, reads (block_of 8 105 20) true false)]
          {| pollers := [Polling (solo 1) (block_of 7 100 5);
                         Polling (solo 1) (block_of 7 100 5);
                         Polling (solo 1) (block_of 6 95 1)];
             common := process_start |})))) = 1%nat.
Proof. vm_compute. reflexivity. Qed.

(** ** Further properties *)

Section further.
Context `{!Externals}.

(** X2: within one funder, under every interleaving, the confirmed
    batches are a prefix of the submitted ones and at most one submitted
    batch is not yet confirmed: batch [j+1] is never submitted before
    batch [j] is confirmed. *)
Theorem one_batch_in_flight c clauses ws sched f w :
  launch c clauses = Ok ws →
  workers (run sched (start_state ws)) !! f = Some w →
  confirmed_by f (chain (run sched (start_state ws)))
  `prefix_of` submitted_by f (chain (run sched (start_state ws)))
  ∧ (length (submitted_by f (chain (run sched (start_state ws))))
     ≤ S (length (confirmed_by f (chain (run sched (start_state ws))))))%nat.
Proof.
  intros Hl Hw. destruct (launch_spawned _ _ _ Hl) as [Hsp _].
  pose proof (run_inv sched _ (start_inv _ Hsp) f w Hw) as (n & _ & _ & Hpc).
  destruct (w_pc w).
  - destruct Hpc as [_ ->]. split; [done|lia].
  - destruct Hpc as [_ ->]. split; [by apply prefix_app_r|].
    rewrite length_app. cbn. lia.
  - destruct Hpc as [_ ->]. split; [done|lia].
  - destruct Hpc as [_ [-> | ->]].
    + split; [done|lia].
    + split; [by apply prefix_app_r|]. rewrite length_app. cbn. lia.
Qed.

(** A tick whose read of the head block fails changes nothing: the
    stored block, the registry and the channel stay as they are. *)
Theorem poll_tick_read_failure c inp prev sh :
  best inp = None → poll_tick c inp prev sh = (prev, sh).
Proof. apply poll_tick_error. Qed.

(** X4: the registry only grows: over any ticks of any pollers no key
    is ever removed. *)
Theorem registry_never_shrinks more st :
  blocks (common st) ⊆ blocks (common (poll_run more st)).
Proof. apply poll_run_blocks_grow. Qed.

End further.

Lemma one_batch_in_flight_witness :
  (length (submitted_by 0%Z (chain (run (replicate 3 (0%Z, Succeeds))
      (start_state {[ 0%Z := spawn {| Address := 4096%Z |} (payments 250) ]}))))
   ≤ S (length (confirmed_by 0%Z (chain (run (replicate 3 (0%Z, Succeeds))
      (start_state {[ 0%Z := spawn {| Address := 4096%Z |} (payments 250) ]}))))))%nat.
Proof.
  pose proof (one_batch_in_flight (solo 1) {[ 0 := payments 250 ]}
                {[ 0 := spawn {| Address := 4096 |} (payments 250) ]}
                (replicate 3 (0, Succeeds)) 0
                {| w_manager := {| Address := 4096 |}; w_clauses := payments 250;
                   w_i := 100; w_pc := AtWait |}) as Hthm.
  destruct Hthm as [_ Hlen]; [vm_compute; reflexivity..|]. exact Hlen.
Defined.

Lemma poll_tick_read_failure_witness :
  @poll_tick go_libraries (solo 1)
    {| best := None; vu_ready := true; ctx_done := false; now := λ _, 0 |}
    (block_of 7 100 5) process_start
  = (block_of 7 100 5, process_start).
Proof. apply (@poll_tick_read_failure go_libraries). reflexivity. Defined.

(** Two endpoints and block numbers with one registry key: the key is a
    plain concatenation. *)
Example dedup_key_collision :
  dedup_key {| opts_URL := "http://localhost:80"; managers := [] |}
    (block_of 801 100 5)
  = dedup_key {| opts_URL := "http://localhost:8080"; managers := [] |}
      (block_of 1 100 5).
Proof. reflexivity. Qed.

(** ** Fund: the edges of the start index and the load of the funders *)

Section Fund_edges.
Context `{!Externals}.

(** X6: with [start] equal to the number of accounts there is no
    recipient: [Fund] returns [nil] at once, builds no clause and sends
    nothing, whatever the chain would answer. *)
Theorem Fund_start_at_length c start amount sched :
  start = Z.of_nat (length (managers c)) →
  Fund c start amount sched = (Returns None, []).
Proof.
  intros ->. unfold Fund, Fund_prepare, Fund_clauses, recipients.
  rewrite Z.ltb_irrefl, Z.sub_diag. cbn [seqZ Fund_loop].
  rewrite seqZ_nil by lia. cbn [Fund_loop]. rewrite launch_empty.
  by rewrite run_no_workers.
Qed.

(** X7: a negative [start] makes the first iteration read
    [c.managers[start]]: [Fund] panics with an index out of range; no
    clause is built and nothing is sent. *)
Theorem Fund_start_negative c start amount sched :
  start < 0 →
  Fund c start amount sched = (Panics IndexOutOfRange, []).
Proof.
  intros Hneg. unfold Fund, Fund_prepare, Fund_clauses, recipients.
  destruct (Z.ltb_spec (Z.of_nat (length (managers c))) start); [lia|].
  rewrite seqZ_cons by lia. cbn [Fund_loop]. unfold Fund_body, index.
  destruct (Z.ltb_spec start 0); [done|lia].
Qed.

Lemma recipients_of_range start c f i :
  0 < start →
  i ∈ recipients_of start c f
  ↔ start ≤ i < Z.of_nat (length (managers c)) ∧ i `mod` start = f.
Proof.
  intros Hs. unfold recipients_of, recipients.
  rewrite list_elem_of_filter, elem_of_seqZ. split; intros [? ?]; split;
    first [done|lia].
Qed.

Lemma funder_has_recipient start c f :
  0 < start ≤ Z.of_nat (length (managers c)) →
  (∃ i, start ≤ i < Z.of_nat (length (managers c)) ∧ i `mod` start = f)
  ↔ 0 ≤ f < start `min` (Z.of_nat (length (managers c)) - start).
Proof.
  intros [Hs HN]. split.
  - intros (i & Hi & <-). pose proof (Z.mod_pos_bound i start Hs) as Hm.
    split; [lia|]. apply Z.min_glb_lt; [lia|].
    destruct (Z.lt_ge_cases i (2 * start)) as [Hlt|Hge]; [|lia].
    replace i with ((i - start) + 1 * start) by lia.
    rewrite Z.mod_add, Z.mod_small by lia. lia.
  - intros Hf. exists (start + f). split; [lia|].
    replace (start + f) with (f + 1 * start) by lia.
    rewrite Z.mod_add, Z.mod_small by lia. done.
Qed.

(** X8: for [0 < start ≤ N] the funders that get clauses, hence a worker
    and transactions to send, are exactly the accounts
    [0 .. min(start, N - start) - 1]; the other accounts below [start]
    send nothing. *)
Theorem Fund_working_funders c start amount :
  0 < start ≤ Z.of_nat (length (managers c)) →
  (∀ i, start ≤ i < Z.of_nat (length (managers c)) → fundable c amount i) →
  ∃ clauses ws,
    Fund_clauses start c amount = Ok clauses
    ∧ Fund_prepare c start amount = Ok ws
    ∧ (∀ f, is_Some (clauses !! f)
            ↔ 0 ≤ f < start `min` (Z.of_nat (length (managers c)) - start))
    ∧ (∀ f, is_Some (ws !! f)
            ↔ 0 ≤ f < start `min` (Z.of_nat (length (managers c)) - start))
    ∧ size ws
      = Z.to_nat (start `min` (Z.of_nat (length (managers c)) - start)).
Proof.
  intros Hs Hfund.
  destruct (Fund_prepare_launches c start amount Hs Hfund)
    as (clauses & ws & Hc & Hp & Hws).
  destruct (Fund_loop_fundable start c amount (recipients start c) ∅)
    as (clauses' & Hrun & _ & Hdom); [lia| |].
  { apply Forall_forall. intros i Hi. apply Hfund.
    unfold recipients in Hi. apply elem_of_seqZ in Hi. lia. }
  unfold Fund_clauses in Hc. rewrite Hc in Hrun. injection Hrun as <-.
  assert (Hcl : ∀ f, is_Some (clauses !! f)
            ↔ 0 ≤ f < start `min` (Z.of_nat (length (managers c)) - start)).
  { intros f. rewrite Hdom, lookup_empty, <-funder_has_recipient by done. split.
    - intros [[? ?]|(i & Hi & Hf)]; [done|]. exists i. split; [|done].
      unfold recipients in Hi. apply elem_of_seqZ in Hi. lia.
    - intros (i & Hi & Hf). right. exists i. split; [|done].
      unfold recipients. apply elem_of_seqZ. lia. }
  assert (Hw : ∀ f, is_Some (ws !! f)
            ↔ 0 ≤ f < start `min` (Z.of_nat (length (managers c)) - start)).
  { intros f. by rewrite <-Hcl, <-Hws, fmap_is_Some. }
  exists clauses, ws. split_and!; [done..|].
  rewrite <-size_dom.
  replace (dom ws) with
    (list_to_set (C := gset Z)
       (seqZ 0 (start `min` (Z.of_nat (length (managers c)) - start)))).
  { rewrite size_list_to_set by apply NoDup_seqZ. by rewrite length_seqZ. }
  apply set_eq. intros f.
  rewrite elem_of_list_to_set, elem_of_seqZ, elem_of_dom, Hw. lia.
Qed.

Lemma length_recipients_upto start f (L : nat) :
  0 ≤ f < start →
  Z.of_nat (length (filter (λ i, i `mod` start = f) (seqZ start (Z.of_nat L))))
  = (start + Z.of_nat L - 1 - f) `div` start.
Proof.
  intros Hf. induction L as [|L IH].
  { cbn. symmetry. apply Z.div_small. lia. }
  rewrite seqZ_S, filter_app, length_app, Nat2Z.inj_add, IH.
  replace (start + Z.of_nat (S L) - 1 - f)
    with ((start + Z.of_nat L - 1 - f) + 1) by lia.
  set (x := start + Z.of_nat L - 1 - f).
  assert (Hx : 0 ≤ x) by (unfold x; lia).
  assert (Hmod : (start + Z.of_nat L) `mod` start = f ↔ (x + 1) `mod` start = 0).
  { replace (start + Z.of_nat L) with ((x + 1) + f) by (unfold x; lia).
    pose proof (Z.div_mod (x + 1) start ltac:(lia)) as Hd.
    pose proof (Z.mod_pos_bound (x + 1) start ltac:(lia)) as Hb.
    split.
    - intros Hm. destruct (Z.eq_dec ((x + 1) `mod` start) 0) as [|Hne]; [done|].
      exfalso.
      destruct (Z.lt_ge_cases ((x + 1) `mod` start + f) start) as [Hlt|Hge].
      + assert (Heq : (x + 1 + f) `mod` start = (x + 1) `mod` start + f).
        { symmetry. apply (Z.mod_unique_pos _ _ ((x + 1) `div` start)); lia. }
        lia.
      + assert (Heq : (x + 1 + f) `mod` start = (x + 1) `mod` start + f - start).
        { symmetry. apply (Z.mod_unique_pos _ _ ((x + 1) `div` start + 1)); lia. }
        lia.
    - intros Hz. symmetry. apply (Z.mod_unique_pos _ _ ((x + 1) `div` start)); lia. }
  pose proof (Z.div_mod x start ltac:(lia)) as Hdx.
  pose proof (Z.mod_pos_bound x start ltac:(lia)) as Hbx.
  destruct (decide ((start + Z.of_nat L) `mod` start = f)) as [Hyes|Hno].
  - rewrite filter_cons_True by done. cbn.
    apply Hmod in Hyes.
    pose proof (Z.div_mod (x + 1) start ltac:(lia)) as Hd1.
    assert ((x + 1) `div` start = x `div` start + 1) by nia. lia.
  - rewrite filter_cons_False by done. cbn.
    assert (Hnz : (x + 1) `mod` start ≠ 0) by (intros Hz; by apply Hno, Hmod).
    pose proof (Z.div_mod (x + 1) start ltac:(lia)) as Hd1.
    pose proof (Z.mod_pos_bound (x + 1) start ltac:(lia)) as Hb1.
    assert ((x + 1) `div` start = x `div` start) by nia. lia.
Qed.

Lemma length_recipients_of start c f :
  0 < start ≤ Z.of_nat (length (managers c)) → 0 ≤ f < start →
  Z.of_nat (length (recipients_of start c f))
  = (Z.of_nat (length (managers c)) - 1 - f) `div` start.
Proof.
  intros [Hs HN] Hf. unfold recipients_of, recipients.
  replace (Z.of_nat (length (managers c)) - start)
    with (Z.of_nat (Z.to_nat (Z.of_nat (length (managers c)) - start))) by lia.
  rewrite length_recipients_upto by done. f_equal. lia.
Qed.

(** X9: for [0 < start ≤ N] funder [f] gets two clauses for each of its
    [(N - 1 - f) / start] recipients, so the load is spread evenly: a
    funder with a smaller index has as many recipients as one with a
    larger index, or one more. *)
Theorem Fund_load_is_balanced c start amount :
  0 < start ≤ Z.of_nat (length (managers c)) →
  (∀ i, start ≤ i < Z.of_nat (length (managers c)) → fundable c amount i) →
  ∃ clauses,
    Fund_clauses start c amount = Ok clauses
    ∧ (∀ f, 0 ≤ f < start →
         Z.of_nat (length (default [] (clauses !! f)))
         = 2 * ((Z.of_nat (length (managers c)) - 1 - f) `div` start))
    ∧ (∀ f g, 0 ≤ f ≤ g → g < start →
         (length (default [] (clauses !! g))
          ≤ length (default [] (clauses !! f))
          ≤ length (default [] (clauses !! g)) + 2)%nat).
Proof.
  intros Hs Hfund.
  destruct (Fund_loop_fundable start c amount (recipients start c) ∅)
    as (clauses & Hrun & Hseq & _); [lia| |].
  { apply Forall_forall. intros i Hi. apply Hfund.
    unfold recipients in Hi. apply elem_of_seqZ in Hi. lia. }
  assert (Hlen : ∀ f, 0 ≤ f < start →
    Z.of_nat (length (default [] (clauses !! f)))
    = 2 * ((Z.of_nat (length (managers c)) - 1 - f) `div` start)).
  { intros f Hf. rewrite Hseq, lookup_empty. cbn [default app].
    rewrite <-length_recipients_of by done.
    unfold spec_assignment. fold (recipients_of start c f).
    assert (Hall : Forall (fundable c amount) (recipients_of start c f)).
    { apply Forall_forall. intros i Hi. apply Hfund.
      apply recipients_of_range in Hi; lia. }
    induction Hall as [|i l (m & vtho & Hm & Hv) _ IH]; [done|].
    rewrite fmap_cons. cbn [concat]. rewrite length_app.
    unfold transfer_clauses at 1. rewrite Hm, Hv. cbn [length]. lia. }
  exists clauses. split_and!; [done|done|].
  intros f g Hfg Hg.
  pose proof (Hlen f ltac:(lia)) as Hf'. pose proof (Hlen g ltac:(lia)) as Hg'.
  set (N := Z.of_nat (length (managers c))) in *.
  assert (Hmono : (N - 1 - g) `div` start ≤ (N - 1 - f) `div` start).
  { apply Z.div_le_mono; lia. }
  assert (Hnear : (N - 1 - f) `div` start ≤ (N - 1 - g) `div` start + 1).
  { replace ((N - 1 - g) `div` start + 1) with ((N - 1 - g + 1 * start) `div` start).
    - apply Z.div_le_mono; lia.
    - rewrite Z.div_add by lia. done. }
  lia.
Qed.
End Fund_edges.

(** ** Fund: what one funder's worker sends *)

Section Fund_per_funder.
Context `{!Externals}.

Lemma step_foreign st g r f :
  g ≠ f →
  workers (step st (g, r)) !! f = workers st !! f
  ∧ submitted_by f (chain (step st (g, r))) = submitted_by f (chain st)
  ∧ confirmed_by f (chain (step st (g, r))) = confirmed_by f (chain st).
Proof.
  intros Hne. destruct (workers st !! g) as [wg|] eqn:Hg; [|by rewrite step_absent].
  rewrite (step_unfold _ _ _ _ Hg). cbn [workers chain].
  rewrite lookup_insert_ne by done. rewrite submitted_by_app, confirmed_by_app.
  destruct (worker_step_other g f r wg) as [-> ->]; [done|].
  by rewrite !app_nil_r.
Qed.

Lemma step_own st1 st2 f r :
  workers st1 !! f = workers st2 !! f →
  submitted_by f (chain st1) = submitted_by f (chain st2) →
  confirmed_by f (chain st1) = confirmed_by f (chain st2) →
  workers (step st1 (f, r)) !! f = workers (step st2 (f, r)) !! f
  ∧ submitted_by f (chain (step st1 (f, r)))
    = submitted_by f (chain (step st2 (f, r)))
  ∧ confirmed_by f (chain (step st1 (f, r)))
    = confirmed_by f (chain (step st2 (f, r))).
Proof.
  intros Hw Hs Hc. destruct (workers st1 !! f) as [w|] eqn:Hw1.
  - rewrite (step_unfold st1 _ _ _ Hw1), (step_unfold st2 f r w) by done.
    cbn [workers chain]. rewrite !lookup_insert_eq.
    by rewrite !submitted_by_app, !confirmed_by_app, Hs, Hc.
  - rewrite (step_absent st1), (step_absent st2) by done. by rewrite Hw1.
Qed.

Lemma run_own_moves sched st1 st2 f :
  workers st1 !! f = workers st2 !! f →
  submitted_by f (chain st1) = submitted_by f (chain st2) →
  confirmed_by f (chain st1) = confirmed_by f (chain st2) →
  workers (run sched st1) !! f = workers (run (own_moves f sched) st2) !! f
  ∧ submitted_by f (chain (run sched st1))
    = submitted_by f (chain (run (own_moves f sched) st2))
  ∧ confirmed_by f (chain (run sched st1))
    = confirmed_by f (chain (run (own_moves f sched) st2)).
Proof.
  revert st1 st2. induction sched as [|[g r] sched IH]; intros st1 st2 Hw Hs Hc.
  { done. }
  unfold own_moves. destruct (decide (g = f)) as [->|Hne].
  - rewrite filter_cons_True by done. rewrite !run_cons.
    destruct (step_own st1 st2 f r Hw Hs Hc) as (? & ? & ?). by apply IH.
  - rewrite filter_cons_False by done. rewrite run_cons.
    destruct (step_foreign st1 g r f Hne) as (Hw' & Hs' & Hc').
    apply IH; congruence.
Qed.

(** X10: what the worker of funder [f] does, submits and gets confirmed
    under an interleaving is what it does when only the answers given
    to [f] are played: the other workers, and their failures, have no
    effect on it. *)
Theorem worker_is_independent sched st f :
  workers (run sched st) !! f = workers (run (own_moves f sched) st) !! f
  ∧ submitted_by f (chain (run sched st))
    = submitted_by f (chain (run (own_moves f sched) st))
  ∧ confirmed_by f (chain (run sched st))
    = confirmed_by f (chain (run (own_moves f sched) st)).
Proof. by apply run_own_moves. Qed.

Lemma run_absent sched st f :
  workers st !! f = None →
  workers (run sched st) !! f = None
  ∧ submitted_by f (chain (run sched st)) = submitted_by f (chain st)
  ∧ confirmed_by f (chain (run sched st)) = confirmed_by f (chain st).
Proof.
  revert st. induction sched as [|[g r] sched IH]; intros st Hf; [done|].
  rewrite run_cons. destruct (decide (g = f)) as [->|Hne].
  - rewrite step_absent by done. by apply IH.
  - destruct (step_foreign st g r f Hne) as (Hw & Hs & Hc).
    destruct (IH (step st (g, r))) as (? & ? & ?); [congruence|].
    split_and!; congruence.
Qed.

Lemma run_present sched st f :
  is_Some (workers st !! f) → is_Some (workers (run sched st) !! f).
Proof.
  revert st. induction sched as [|mv sched IH]; intros st Hf; [done|].
  rewrite run_cons. by apply IH, step_present.
Qed.

Lemma worker_inv_submitted f w ch :
  worker_inv f w ch → submitted_by f ch `prefix_of` batches (w_clauses w).
Proof.
  intros (n & _ & Hc & Hpc).
  assert (Hnext : (100 * n < length (w_clauses w))%nat →
    (confirmed_by f ch ++ [batch_at (w_clauses w) (100 * n)])
    `prefix_of` batches (w_clauses w)).
  { intros Hlt. rewrite Hc.
    replace (((λ j, batch_at (w_clauses w) (100 * j)%nat) <$> seq 0 n)
             ++ [batch_at (w_clauses w) (100 * n)])
      with ((λ j, batch_at (w_clauses w) (100 * j)%nat) <$> seq 0 (S n))
      by (by rewrite seq_S, fmap_app).
    by apply batches_upto_prefix, below_ceil_div_100. }
  assert (Hconf : (100 * n < length (w_clauses w))%nat →
    confirmed_by f ch `prefix_of` batches (w_clauses w)).
  { intros Hlt. rewrite Hc. apply batches_upto_prefix.
    apply below_ceil_div_100 in Hlt. lia. }
  destruct (w_pc w).
  - destruct Hpc as [Hlt ->]. auto.
  - destruct Hpc as [Hlt ->]. auto.
  - destruct Hpc as [-> ->]. rewrite Hc. by apply batches_upto_prefix.
  - destruct Hpc as [Hlt [-> | ->]]; auto.
Qed.

Lemma batches_lookup cl j b :
  batches cl !! j = Some b →
  b = take 100 (drop (100 * j) cl) ∧ (0 < length b ≤ 100)%nat.
Proof.
  intros Hb. apply batches_upto_lookup in Hb as [Hj ->].
  rewrite batch_at_take_drop. split; [done|].
  rewrite length_take, length_drop.
  pose proof (ceil_div_100_bounds (length cl)). lia.
Qed.

(** X12: under every interleaving, every batch a worker hands to [Send]
    holds at least one and at most 100 clauses: no transaction is empty
    and none exceeds the batch size. *)
Theorem batch_size_is_bounded c clauses ws sched f b :
  launch c clauses = Ok ws →
  b ∈ submitted_by f (chain (run sched (start_state ws))) →
  (0 < length b ≤ 100)%nat.
Proof.
  intros Hl Hb. destruct (launch_spawned _ _ _ Hl) as [Hsp _].
  destruct (workers (run sched (start_state ws)) !! f) as [w|] eqn:Hw.
  - pose proof (run_inv sched _ (start_inv _ Hsp) f w Hw) as Hinv.
    apply worker_inv_submitted in Hinv as [rest Hrest].
    apply list_elem_of_lookup in Hb as [j Hj].
    assert (Hbj : batches (w_clauses w) !! j = Some b).
    { rewrite Hrest. by apply lookup_app_l_Some. }
    by apply batches_lookup in Hbj as [_ ?].
  - assert (Hw0 : workers (start_state ws) !! f = None).
    { destruct (workers (start_state ws) !! f) eqn:Hf; [|done].
      destruct (run_present sched (start_state ws) f) as [? Hp]; [by eexists|].
      congruence. }
    destruct (run_absent sched _ f Hw0) as (_ & Hs & _).
    rewrite Hs in Hb. by apply elem_of_nil in Hb.
Qed.

Lemma concat_pairs_drop {A} (ps : list (list A)) (k : nat) :
  Forall (λ p, length p = 2%nat) ps →
  drop (2 * k) (concat ps) = concat (drop k ps).
Proof.
  intros Hps. revert k. induction Hps as [|p ps Hp _ IH]; intros k.
  { cbn [concat]. by rewrite !drop_nil. }
  destruct k as [|k]; [done|]. cbn [concat drop].
  replace (2 * S k)%nat with (length p + 2 * k)%nat by lia.
  by rewrite drop_app_add.
Qed.

Lemma concat_pairs_take {A} (ps : list (list A)) (k : nat) :
  Forall (λ p, length p = 2%nat) ps →
  take (2 * k) (concat ps) = concat (take k ps).
Proof.
  intros Hps. revert k. induction Hps as [|p ps Hp _ IH]; intros k.
  { cbn [concat]. by rewrite !take_nil. }
  destruct k as [|k]; [done|]. cbn [concat take].
  replace (2 * S k)%nat with (length p + 2 * k)%nat by lia.
  by rewrite take_app_add, IH.
Qed.

Lemma transfer_clauses_pair c amount i :
  fundable c amount i → length (transfer_clauses c amount i) = 2%nat.
Proof.
  intros (m & vtho & Hm & Hv). unfold transfer_clauses. by rewrite Hm, Hv.
Qed.

(** What [Fund] launches, in terms of the recipients of each funder. *)
Lemma Fund_prepare_workers c start amount ws f w :
  0 < start ≤ Z.of_nat (length (managers c)) →
  (∀ i, start ≤ i < Z.of_nat (length (managers c)) → fundable c amount i) →
  Fund_prepare c start amount = Ok ws →
  (ws !! f = Some w →
   w_clauses w = concat (transfer_clauses c amount <$> recipients_of start c f))
  ∧ (ws !! f = None → recipients_of start c f = []).
Proof.
  intros Hs Hfund Hp.
  destruct (Fund_prepare_launches c start amount Hs Hfund)
    as (clauses & ws' & Hc & Hp' & Hws).
  rewrite Hp in Hp'. injection Hp' as <-.
  destruct (Fund_loop_fundable start c amount (recipients start c) ∅)
    as (clauses' & Hrun & Hseq & Hdom); [lia| |].
  { apply Forall_forall. intros i Hi. apply Hfund.
    unfold recipients in Hi. apply elem_of_seqZ in Hi. lia. }
  unfold Fund_clauses in Hc. rewrite Hc in Hrun. injection Hrun as <-.
  specialize (Hseq f). rewrite lookup_empty in Hseq. cbn [default app] in Hseq.
  unfold spec_assignment in Hseq. fold (recipients_of start c f) in Hseq.
  specialize (Hws f). split.
  - intros Hw. rewrite Hw in Hws. cbn in Hws. by rewrite <-Hws in Hseq.
  - intros Hw. rewrite Hw in Hws. cbn in Hws.
    destruct (recipients_of start c f) as [|i l] eqn:Hr; [done|]. exfalso.
    assert (Hsome : is_Some (clauses !! f)).
    { apply Hdom. right. exists i.
      assert (Hi : i ∈ recipients_of start c f) by (rewrite Hr; left).
      unfold recipients_of in Hi. by apply list_elem_of_filter in Hi as [? ?]. }
    rewrite <-Hws in Hsome. by destruct Hsome.
Qed.

(** X13: the two clauses of a recipient are never separated: the batch
    number [j] that the worker of funder [f] submits consists of both
    clauses of each of the recipients number [50 j] to [50 j + 49] of
    [f], in that order. *)
Theorem batch_holds_whole_recipients c start amount ws sched f j b :
  0 < start ≤ Z.of_nat (length (managers c)) →
  (∀ i, start ≤ i < Z.of_nat (length (managers c)) → fundable c amount i) →
  Fund_prepare c start amount = Ok ws →
  submitted_by f (chain (run sched (start_state ws))) !! j = Some b →
  b = concat (transfer_clauses c amount
              <$> take 50 (drop (50 * j) (recipients_of start c f))).
Proof.
  intros Hs Hfund Hp Hb.
  pose proof (Fund_prepare_spawned _ _ _ _ Hp) as Hsp.
  destruct (workers (run sched (start_state ws)) !! f) as [w|] eqn:Hw.
  - pose proof (run_inv sched _ (start_inv _ Hsp) f w Hw) as Hinv.
    apply worker_inv_submitted in Hinv as [rest Hrest].
    assert (Hbj : batches (w_clauses w) !! j = Some b).
    { rewrite Hrest. by apply lookup_app_l_Some. }
    apply batches_lookup in Hbj as [-> _].
    destruct (run_fixed _ _ _ _ Hw) as (w0 & Hw0 & -> & _). cbn in Hw0.
    destruct (Fund_prepare_workers c start amount ws f w0 Hs Hfund Hp) as [Hcl _].
    rewrite (Hcl Hw0).
    assert (Hpairs : Forall (λ p, length p = 2%nat)
              (transfer_clauses c amount <$> recipients_of start c f)).
    { apply Forall_fmap, Forall_forall. intros i Hi. cbn.
      apply transfer_clauses_pair, Hfund.
      apply recipients_of_range in Hi; lia. }
    replace (100 * j)%nat with (2 * (50 * j))%nat by lia.
    rewrite concat_pairs_drop by done.
    change 100%nat with (2 * 50)%nat.
    rewrite concat_pairs_take by (by apply Forall_drop).
    by rewrite fmap_take, fmap_drop.
  - assert (Hw0 : workers (start_state ws) !! f = None).
    { destruct (workers (start_state ws) !! f) eqn:Hf; [|done].
      destruct (run_present sched (start_state ws) f) as [? Hp']; [by eexists|].
      congruence. }
    destruct (run_absent sched _ f Hw0) as (_ & Hsub & _).
    by rewrite Hsub in Hb.
Qed.

(** X11: when [Fund] returns [nil] for a start index in range, every
    funder has had all its batches confirmed: the confirmed clauses of
    funder [f], in order, are both clauses of every recipient of [f],
    and nothing was submitted that is not confirmed. *)
Theorem Fund_nil_means_all_confirmed c start amount sched ch f :
  0 < start ≤ Z.of_nat (length (managers c)) →
  (∀ i, start ≤ i < Z.of_nat (length (managers c)) → fundable c amount i) →
  Fund c start amount sched = (Returns None, ch) →
  concat (confirmed_by f ch)
  = concat (transfer_clauses c amount <$> recipients_of start c f)
  ∧ submitted_by f ch = confirmed_by f ch.
Proof.
  intros Hs Hfund HF.
  destruct (Fund_prepare_launches c start amount Hs Hfund)
    as (clauses & ws & _ & Hp & _).
  pose proof (Fund_prepare_spawned _ _ _ _ Hp) as Hsp.
  unfold Fund in HF. rewrite Hp in HF.
  destruct (all_returned (run sched (start_state ws))) eqn:Hall; [|done].
  injection HF as Herr <-.
  destruct (ws !! f) as [w0|] eqn:Hw0.
  - destruct (run_present sched (start_state ws) f) as [w Hw]; [by eexists|].
    pose proof (run_inv sched _ (start_inv _ Hsp) f w Hw) as (n & _ & Hc & Hpc).
    assert (Hret : returned w = true).
    { unfold all_returned in Hall. rewrite forallb_forall in Hall.
      apply (Hall (f, w)). by apply list_elem_of_In, elem_of_map_to_list. }
    assert (Hok : w_pc w = ReturnedOk).
    { unfold returned in Hret. destruct (w_pc w) eqn:Hpcw; try done.
      exfalso. apply (proj2 (run_error_iff sched ws Hsp)); [|done].
      by exists f, w. }
    rewrite Hok in Hpc. destruct Hpc as [-> Hsub].
    split; [|done]. rewrite Hc. fold (batches (w_clauses w)).
    rewrite concat_batches.
    destruct (run_fixed _ _ _ _ Hw) as (w0' & Hw0' & -> & _). cbn in Hw0'.
    rewrite Hw0 in Hw0'. injection Hw0' as <-.
    by destruct (Fund_prepare_workers c start amount ws f w0 Hs Hfund Hp) as [-> _].
  - destruct (run_absent sched (start_state ws) f Hw0) as (_ & -> & ->).
    destruct (Fund_prepare_workers c start amount ws f
                {| w_manager := {| Address := 0 |}; w_clauses := [];
                   w_i := 0; w_pc := AtSend |} Hs Hfund Hp) as [_ ->]; done.
Qed.
End Fund_per_funder.

Lemma solo_fundable n amount i :
  0 ≤ i < Z.of_nat n → @fundable go_libraries (solo n) amount i.
Proof.
  intros Hi. exists {| Address := 4096 + i |}. eexists. split.
  - unfold index, solo. cbn [managers]. destruct (Z.ltb_spec i 0); [lia|].
    rewrite list_lookup_fmap, lookup_seq_lt by lia. cbn. do 2 f_equal. lia.
  - reflexivity.
Qed.

Lemma solo_length n : length (managers (solo n)) = n.
Proof. unfold solo. cbn. by rewrite length_fmap, length_seq. Qed.

Lemma Fund_start_at_length_witness :
  @Fund go_libraries (solo 10) 10 "ff" [(0, Succeeds)] = (Returns None, []).
Proof. apply (@Fund_start_at_length go_libraries (solo 10) 10 "ff"). reflexivity. Defined.

Lemma Fund_start_negative_witness :
  @Fund go_libraries (solo 3) (-1) "ff" [(0, Succeeds)]
  = (Panics IndexOutOfRange, []).
Proof. apply (@Fund_start_negative go_libraries (solo 3) (-1) "ff"). lia. Defined.

Lemma Fund_working_funders_witness :
  ∃ clauses ws,
    @Fund_clauses go_libraries 10 (solo 12) "ff" = Ok clauses
    ∧ @Fund_prepare go_libraries (solo 12) 10 "ff" = Ok ws
    ∧ size ws = 2%nat.
Proof.
  destruct (@Fund_working_funders go_libraries (solo 12) 10 "ff")
    as (clauses & ws & Hc & Hp & _ & _ & Hsize).
  - rewrite solo_length. lia.
  - intros i Hi. rewrite solo_length in Hi. apply solo_fundable. lia.
  - exists clauses, ws. split_and!; [exact Hc|exact Hp|].
    rewrite Hsize, solo_length. reflexivity.
Defined.

Lemma Fund_load_is_balanced_witness :
  ∃ clauses,
    @Fund_clauses go_libraries 10 (solo 25) "ff" = Ok clauses
    ∧ Z.of_nat (length (default [] (clauses !! 0))) = 4
    ∧ Z.of_nat (length (default [] (clauses !! 7))) = 2.
Proof.
  destruct (@Fund_load_is_balanced go_libraries (solo 25) 10 "ff")
    as (clauses & Hc & Hlen & _).
  - rewrite solo_length. lia.
  - intros i Hi. rewrite solo_length in Hi. apply solo_fundable. lia.
  - exists clauses. split; [exact Hc|].
    rewrite !Hlen, solo_length by lia. split; reflexivity.
Defined.

Lemma batch_size_is_bounded_witness :
  (0 < length (take 100 (payments 250)) ≤ 100)%nat.
Proof.
  apply (batch_size_is_bounded (solo 1) {[ 0 := payments 250 ]}
           {[ 0 := spawn {| Address := 4096 |} (payments 250) ]}
           (replicate 3 (0, Succeeds)) 0 (take 100 (payments 250))).
  - vm_compute. reflexivity.
  - apply list_elem_of_lookup. exists 0%nat. vm_compute. reflexivity.
Defined.

Lemma batch_holds_whole_recipients_witness :
  @transfer_clauses go_libraries (solo 12) "ff" 11
  = concat (@transfer_clauses go_libraries (solo 12) "ff"
            <$> take 50 (drop (50 * 0) (recipients_of 10 (solo 12) 1))).
Proof.
  apply (@batch_holds_whole_recipients go_libraries (solo 12) 10 "ff"
           solo_workers [(1, Succeeds)] 1 0%nat).
  - rewrite solo_length. lia.
  - intros i Hi. rewrite solo_length in Hi. apply solo_fundable. lia.
  - vm_compute. reflexivity.
  - vm_compute. reflexivity.
Defined.

Lemma Fund_nil_means_all_confirmed_witness :
  concat (confirmed_by 0
    (@Fund go_libraries (solo 12) 10 "ff"
       [(0, Succeeds); (1, Succeeds); (1, Succeeds); (0, Succeeds)]).2)
  = concat (@transfer_clauses go_libraries (solo 12) "ff"
            <$> recipients_of 10 (solo 12) 0).
Proof.
  apply (@Fund_nil_means_all_confirmed go_libraries (solo 12) 10 "ff"
           [(0, Succeeds); (1, Succeeds); (1, Succeeds); (0, Succeeds)]).
  - rewrite solo_length. lia.
  - intros i Hi. rewrite solo_length in Hi. apply solo_fundable. lia.
  - vm_compute. reflexivity.
Defined.

(** ** The pollers: further properties *)

Section pollers_further.
Context `{!Externals}.

(** X14: from the start of a process, for every number of pollers and
    every interleaving, the channel never holds more groups than the
    registry holds keys. *)
Theorem groups_never_exceed_keys ps sched :
  (length (sink (common (poll_run sched {| pollers := ps; common := process_start |})))
   ≤ size (blocks (common (poll_run sched {| pollers := ps; common := process_start |}))))%nat.
Proof.
  destruct (process_start_inv EmptyString) as [Hd _].
  pose proof (poll_run_inv sched {| pollers := ps; common := process_start |} Hd)
    as [Hnd Hin].
  set (sh := common (poll_run sched {| pollers := ps; common := process_start |})) in *.
  rewrite <-(length_fmap group_key), <-(size_list_to_set (C := gset string)) by done.
  apply subseteq_size. intros k Hk. apply elem_of_list_to_set in Hk.
  apply list_elem_of_fmap in Hk as (g & -> & Hg). by destruct (Hin g Hg).
Qed.

Lemma poll_run_cons mv sched st :
  poll_run (mv :: sched) st = poll_run sched (poll_step st mv).
Proof. done. Qed.

Lemma poll_step_other st mv j :
  mv.1 ≠ j → pollers (poll_step st mv) !! j = pollers st !! j.
Proof.
  intros Hne. unfold poll_step.
  destruct (pollers st !! mv.1) as [[|c prev]|]; [done| |done].
  destruct (poll_tick c mv.2 prev (common st)) as [prev' sh']. cbn.
  by rewrite list_lookup_insert_ne.
Qed.

(** X15: a poller whose first read of the head block has failed has
    left for good: under every interleaving it stays out, and the ticks
    that would have been its own change nothing, so the other pollers
    run as if it were not there.  The first read is not retried. *)
Theorem first_read_failure_is_final c sched st j :
  pollers st !! j = Some (pollForBlocks c None) →
  pollers (poll_run sched st) !! j = Some Exited
  ∧ poll_run sched st = poll_run (filter (λ mv, mv.1 ≠ j) sched) st.
Proof.
  cbn [pollForBlocks]. revert st.
  induction sched as [|mv sched IH]; intros st Hj; [done|].
  rewrite poll_run_cons. destruct (decide (mv.1 = j)) as [Heq|Hne].
  - rewrite filter_cons_False by (intros ?; done).
    assert (Hst : poll_step st mv = st).
    { unfold poll_step. by rewrite Heq, Hj. }
    rewrite Hst. by apply IH.
  - rewrite filter_cons_True by done. rewrite poll_run_cons.
    apply IH. by rewrite poll_step_other.
Qed.

Lemma Milliseconds_whole z : Milliseconds (z * Second) = 1000 * z.
Proof.
  unfold Milliseconds, Second, Millisecond.
  replace (z * 1000000000) with ((1000 * z) * 1000000) by lia.
  by rewrite Z.quot_mul.
Qed.

(** X16: for timestamps below [2^63] and less than 9223372036 seconds
    apart, the value of the block-time sample, the fourth of a group, is
    the elapsed time in milliseconds, [1000 * (timestamp(new) -
    timestamp(previous))], and its tag is the text of that duration. *)
Theorem block_time_is_elapsed_milliseconds prev block now :
  (Timestamp prev < 2 ^ 63)%N → (Timestamp block < 2 ^ 63)%N →
  - 9223372036 ≤ Z.of_N (Timestamp block) - Z.of_N (Timestamp prev)
    ≤ 9223372036 →
  block_samples prev block now !! 3%nat
  = Some {| Sample_Metric := vechain_block_time;
            Sample_Tags :=
              {[ "block_timestamp_diff" :=
                   Duration_String
                     ((Z.of_N (Timestamp block) - Z.of_N (Timestamp prev))
                      * Second) ]};
            Sample_Value :=
              float64_of_int64
                (1000 * (Z.of_N (Timestamp block) - Z.of_N (Timestamp prev)));
            Sample_Time := now 3%nat |}.
Proof.
  intros Hp Hb Hd. unfold block_samples. cbn [lookup list_lookup].
  assert (Hdiff : blockTimestampDiff prev block
                  = (Z.of_N (Timestamp block) - Z.of_N (Timestamp prev)) * Second).
  { unfold blockTimestampDiff. rewrite !int64_small by lia.
    by apply Unix_Sub_in_range. }
  by rewrite Hdiff, Milliseconds_whole.
Qed.
End pollers_further.

Lemma first_read_failure_is_final_witness :
  pollers (@poll_run go_libraries
             [(0%nat, reads (block_of 8 105 20) true false);
              (1%nat, reads (block_of 8 105 20) true false)]
             {| pollers := [pollForBlocks (solo 1) None;
                            pollForBlocks (solo 1) (Some (block_of 7 100 5))];
                common := process_start |}) !! 0%nat
  = Some Exited.
Proof.
  apply (@first_read_failure_is_final go_libraries (solo 1)
           [(0%nat, reads (block_of 8 105 20) true false);
            (1%nat, reads (block_of 8 105 20) true false)]
           {| pollers := [pollForBlocks (solo 1) None;
                          pollForBlocks (solo 1) (Some (block_of 7 100 5))];
              common := process_start |} 0%nat).
  reflexivity.
Defined.

Lemma block_time_is_elapsed_milliseconds_witness :
  (Sample_Value <$>
     @block_samples go_libraries (block_of 7 100 5) (block_of 8 105 20) (λ _, 0)
     !! 3%nat)
  = Some (float64_of_int64 5000).
Proof.
  rewrite (@block_time_is_elapsed_milliseconds go_libraries
             (block_of 7 100 5) (block_of 8 105 20) (λ _, 0));
    [reflexivity | reflexivity | reflexivity | cbn; lia].
Defined.

(** ** NewClient and Accounts *)

Section NewClient_properties.
Context `{!Host} `{!Externals}.

Lemma with_defaults_fields opts :
  URL (with_defaults opts)
  = (if decide (URL opts = EmptyString) then "http://localhost:8669" else URL opts)
  ∧ Mnemonic (with_defaults opts)
    = (if decide (Mnemonic opts = EmptyString) then mnemonic else Mnemonic opts)
  ∧ Accounts (with_defaults opts)
    = (if Accounts opts =? 0 then accountAmount else Accounts opts).
Proof.
  unfold with_defaults. destruct opts as [u m a]. cbn.
  repeat (case_decide; cbn); destruct (a =? 0); cbn; done.
Qed.

Lemma managers_loop_from wa (m k : nat) (buf : list (option PKManager)) :
  length buf = (k + m)%nat →
  managers_loop wa (seq k m) buf
  = take k buf
    ++ ((λ i, Some (derive wa (Z.of_nat i `mod` 2 ^ 32))) <$> seq k m).
Proof.
  revert k buf. induction m as [|m IH]; intros k buf Hlen.
  { cbn. rewrite app_nil_r, take_ge; [done|lia]. }
  cbn [seq managers_loop fmap list_fmap].
  rewrite IH by (rewrite length_insert; lia).
  rewrite (take_S_r _ _ (Some (derive wa (Z.of_nat k `mod` 2 ^ 32))))
    by (apply list_lookup_insert_eq; lia).
  rewrite take_insert_ge by lia. by rewrite <-app_assoc.
Qed.

Lemma managers_loop_all wa (n : nat) :
  omap id (managers_loop wa (seq 0 n) (replicate n None))
  = (λ i, derive wa (Z.of_nat i `mod` 2 ^ 32)) <$> seq 0 n.
Proof.
  rewrite managers_loop_from by (by rewrite length_replicate).
  rewrite take_0. cbn [app]. generalize (seq 0 n). intros l.
  induction l as [|i l IH]; [done|]. cbn. by rewrite IH.
Qed.

Lemma NewClient_constructs_inv Arguments first c n p :
  NewClient Arguments first = Constructs c n p →
  ∃ arg rest argument opts wa,
    Arguments = arg :: rest
    ∧ ExportTo arg = inl argument
    ∧ newOptionsFrom argument = inl opts
    ∧ opts_URL c
      = (if decide (URL opts = EmptyString)
         then "http://localhost:8669" else URL opts)
    ∧ opts_URL c ≠ EmptyString
    ∧ FromMnemonic
        (if decide (Mnemonic opts = EmptyString) then mnemonic else Mnemonic opts)
      = inl wa
    ∧ n = (if Accounts opts =? 0 then 10 else Accounts opts)
    ∧ 0 < n
    ∧ managers c
      = (λ i, derive wa (Z.of_nat i `mod` 2 ^ 32)) <$> seq 0 (Z.to_nat n)
    ∧ length (managers c) = Z.to_nat n
    ∧ p = pollForBlocks c first.
Proof.
  unfold NewClient. destruct Arguments as [|arg rest]; [done|].
  destruct (ExportTo arg) as [argument|] eqn:He; [|done].
  destruct (newOptionsFrom argument) as [opts|] eqn:Ho; [|done].
  destruct (with_defaults_fields opts) as (Hu & Hm & Ha).
  destruct (FromMnemonic (Mnemonic (with_defaults opts))) as [wa|] eqn:Hw; [|done].
  destruct (FromURL (URL (with_defaults opts))); [done|].
  destruct (Z.ltb_spec (Accounts (with_defaults opts)) 0) as [|Hge]; [done|].
  intros [= <- <- <-]. exists arg, rest, argument, opts, wa.
  cbn [opts_URL managers]. rewrite managers_loop_all, length_fmap, length_seq.
  rewrite <-Hm, <-Hu.
  assert (Hpos : 0 < Accounts (with_defaults opts)).
  { rewrite Ha in Hge |- *.
    destruct (Z.eqb_spec (Accounts opts) 0); [done|lia]. }
  assert (Hne : URL (with_defaults opts) ≠ EmptyString).
  { rewrite Hu. destruct (decide (URL opts = EmptyString)); [discriminate|done]. }
  do 10 (split; [done|]). done.
Qed.


(** X17: a client that [NewClient] returns has a non-empty endpoint and
    at least one account: its options are those decoded from the
    argument with an empty endpoint replaced by [http://localhost:8669],
    an empty mnemonic by the default one and a zero account count by 10;
    it holds exactly that many managers, the one at index [i] derived at
    child index [i] (modulo [2^32]) of the wallet of the mnemonic; and
    exactly one poller has been started for it. *)
Theorem NewClient_constructs Arguments first c n p :
  NewClient Arguments first = Constructs c n p →
  ∃ arg rest argument opts wa,
    Arguments = arg :: rest
    ∧ ExportTo arg = inl argument
    ∧ newOptionsFrom argument = inl opts
    ∧ opts_URL c
      = (if decide (URL opts = EmptyString)
         then "http://localhost:8669" else URL opts)
    ∧ opts_URL c ≠ EmptyString
    ∧ FromMnemonic
        (if decide (Mnemonic opts = EmptyString) then mnemonic else Mnemonic opts)
      = inl wa
    ∧ n = (if Accounts opts =? 0 then 10 else Accounts opts)
    ∧ 0 < n
    ∧ managers c
      = (λ i, derive wa (Z.of_nat i `mod` 2 ^ 32)) <$> seq 0 (Z.to_nat n)
    ∧ length (managers c) = Z.to_nat n
    ∧ p = pollForBlocks c first.
Proof. apply NewClient_constructs_inv. Qed.

(** X18: [NewClient] ends in a run-time panic, not in a thrown
    exception, when the constructor is called without argument
    ([call.Arguments[0]]) and when the options decode, the mnemonic and
    the endpoint are accepted but the account count is negative
    ([make] of a negative length). *)
Theorem NewClient_crashes first :
  NewClient [] first = Crashes index_out_of_range
  ∧ ∀ arg rest argument opts wa,
      ExportTo arg = inl argument →
      newOptionsFrom argument = inl opts →
      Accounts opts < 0 →
      FromMnemonic
        (if decide (Mnemonic opts = EmptyString) then mnemonic else Mnemonic opts)
      = inl wa →
      FromURL
        (if decide (URL opts = EmptyString)
         then "http://localhost:8669" else URL opts) = None →
      NewClient (arg :: rest) first = Crashes makeslice_len_out_of_range.
Proof.
  split; [done|]. intros arg rest argument opts wa He Ho Hneg Hw Hu.
  unfold NewClient. rewrite He, Ho.
  destruct (with_defaults_fields opts) as (-> & -> & Ha).
  rewrite Hw, Hu, Ha.
  destruct (Z.eqb_spec (Accounts opts) 0); [lia|].
  destruct (Z.ltb_spec (Accounts opts) 0); [done|lia].
Qed.

Lemma Accounts_loop_app todo addresses :
  Accounts_loop todo addresses
  = addresses ++ ((λ m, Address_String (Address m)) <$> todo).
Proof.
  revert addresses. induction todo as [|m todo IH]; intros addresses.
  { by rewrite app_nil_r. }
  cbn [Accounts_loop]. by rewrite IH, <-app_assoc.
Qed.

(** X19: on a client that [NewClient] returns, [Accounts] lists one
    address per account, as many as the [accounts] field says, the one
    at index [i] being the text of the address of the manager at index
    [i]. *)
Theorem Accounts_of_new_client Arguments first c n p :
  NewClient Arguments first = Constructs c n p →
  Z.of_nat (length (Client_Accounts c)) = n
  ∧ ∀ i, Client_Accounts c !! i
         = (λ m, Address_String (Address m)) <$> managers c !! i.
Proof.
  intros (? & ? & ? & ? & ? & _ & _ & _ & _ & _ & _ & _ & Hn & _ & Hlen & _)
    %NewClient_constructs_inv.
  unfold Client_Accounts. rewrite Accounts_loop_app. cbn [app]. split.
  - rewrite length_fmap, Hlen. lia.
  - intros i. by rewrite list_lookup_fmap.
Qed.

(** X20: on every client that [NewClient] returns, [Fund] with a start
    index of 0 panics with an integer division by zero, whatever the
    amount; nothing is sent. *)
Theorem Fund_zero_on_new_client Arguments first c n p amount sched :
  NewClient Arguments first = Constructs c n p →
  Fund c 0 amount sched = (Panics IntegerDivideByZero, []).
Proof.
  intros (? & ? & ? & ? & ? & _ & _ & _ & _ & _ & _ & _ & Hn & _ & Hlen & _)
    %NewClient_constructs_inv.
  destruct c as [url [|m ms]]; cbn in Hlen; [lia|].
  unfold Fund, Fund_prepare, Fund_clauses.
  rewrite recipients_zero_cons. reflexivity.
Qed.
End NewClient_properties.

Lemma NewClient_constructs_witness :
  opts_URL (solo 10) ≠ EmptyString
  ∧ length (managers (solo 10)) = Z.to_nat 10.
Proof.
  destruct (@NewClient_constructs (host_decoding no_options) [()] None
              (solo 10) 10 Exited)
    as (arg & rest & argument & opts & wa
        & _ & _ & _ & _ & Hne & _ & _ & _ & _ & Hlen & _).
  - vm_compute. reflexivity.
  - split; [exact Hne | exact Hlen].
Defined.

Lemma Accounts_of_new_client_witness :
  Z.of_nat (length (@Client_Accounts (host_decoding no_options) (solo 10))) = 10.
Proof.
  apply (@Accounts_of_new_client (host_decoding no_options) [()] None
           (solo 10) 10 Exited).
  vm_compute. reflexivity.
Defined.

Lemma Fund_zero_on_new_client_witness :
  @Fund go_libraries (solo 10) 0 "ff" [(0, Succeeds)]
  = (Panics IntegerDivideByZero, []).
Proof.
  apply (@Fund_zero_on_new_client (host_decoding no_options) go_libraries
           [()] None (solo 10) 10 Exited).
  vm_compute. reflexivity.
Defined.

Example NewClient_negative_accounts :
  @NewClient (host_decoding {| URL := "http://node:8669"; Mnemonic := EmptyString;
                               Accounts := -1 |}) [()] None
  = Crashes makeslice_len_out_of_range.
Proof. reflexivity. Qed.

(** ** reportMetricsFromStats *)

Section report.

(** X21: [reportMetricsFromStats] pushes one sample of the request
    duration, tagged with the call, whose value is the duration in whole
    milliseconds, truncated: [k] for a duration of [k] milliseconds and
    less than one more, so 0 below a millisecond; nothing is pushed when
    the context is done.  Where the poller skips its emission, with no
    VU or no VU state, it panics on the nil dereference. *)
Theorem reportMetricsFromStats_truncates call now output :
  (∀ t, reportMetricsFromStats NoVU call t now output
        = Crashed nil_pointer_dereference
        ∧ reportMetricsFromStats NoState call t now output
          = Crashed nil_pointer_dereference)
  ∧ (∀ t, reportMetricsFromStats (Running true) call t now output = Done output)
  ∧ (∀ k r, 0 ≤ k → 0 ≤ r < Millisecond →
       reportMetricsFromStats (Running false) call (k * Millisecond + r) now output
       = Done (output ++
               [ {| Sample_Metric := vechain_req_duration;
                    Sample_Tags := {[ "call" := call ]};
                    Sample_Value := float64_of_int64 k;
                    Sample_Time := now |} ])).
Proof.
  split_and!; [done|done|]. intros k r Hk Hr. unfold reportMetricsFromStats.
  replace (Z.quot (k * Millisecond + r) Millisecond) with k; [done|].
  unfold Millisecond in *. rewrite Z.quot_div_nonneg by lia.
  apply (Z.div_unique _ _ _ r); lia.
Qed.
End report.

Example reportMetricsFromStats_below_a_millisecond :
  reportMetricsFromStats (Running false) "eth_call" 999999 0 []
  = Done [ {| Sample_Metric := vechain_req_duration;
              Sample_Tags := {[ "call" := "eth_call" ]};
              Sample_Value := 0%float;
              Sample_Time := 0 |} ].
Proof. reflexivity. Qed.

(** ** Package random *)

Section random_properties.
Context `{!random.Rand}.

Lemma SetBytes_exact size b : length b = size → random.SetBytes size b = b.
Proof.
  intros Hlen. unfold random.SetBytes. rewrite Hlen, Nat.ltb_irrefl.
  by rewrite Hlen, Nat.sub_diag.
Qed.

Lemma Bytes_nonneg n s :
  0 ≤ n → random.Bytes n s = Done (random.Read s (Z.to_nat n)).
Proof. intros Hn. unfold random.Bytes. destruct (Z.ltb_spec n 0); [lia|done]. Qed.

Lemma Bytes_then_SetBytes (size : nat) s :
  match random.Bytes (Z.of_nat size) s with
  | Done (b, s') => Done (random.SetBytes size b, s')
  | Crashed p => Crashed p
  end = random.Bytes (Z.of_nat size) s
  ∧ ∃ b s', random.Bytes (Z.of_nat size) s = Done (b, s') ∧ length b = size.
Proof.
  rewrite Bytes_nonneg, Nat2Z.id by lia.
  pose proof (random.Read_length s size) as Hlen.
  destruct (random.Read s size) as [b s'] eqn:Hr. cbn [fst] in Hlen.
  rewrite SetBytes_exact by done. split; [done|]. by exists b, s'.
Qed.

(** X22: [Bytes(n)] returns exactly [n] bytes for [n ≥ 0] and panics for
    a negative [n]; [Hash] and [Address] return the 32 and the 20 bytes
    that [Bytes] reads, unchanged, and leave the generator as [Bytes]
    does; [Uint8] returns the number drawn, which lies in [0, 255]. *)
Theorem random_sizes s :
  (∀ n, 0 ≤ n →
     random.Bytes n s = Done (random.Read s (Z.to_nat n))
     ∧ length (random.Read s (Z.to_nat n)).1 = Z.to_nat n)
  ∧ (∀ n, n < 0 → random.Bytes n s = Crashed makeslice_len_out_of_range)
  ∧ (random.Hash s = random.Bytes 32 s
     ∧ ∃ b s', random.Hash s = Done (b, s') ∧ length b = 32%nat)
  ∧ (random.Address s = random.Bytes 20 s
     ∧ ∃ b s', random.Address s = Done (b, s') ∧ length b = 20%nat)
  ∧ (random.Uint8 s = random.Intn s 256 ∧ 0 ≤ (random.Uint8 s).1 < 256).
Proof.
  split; [|split; [|split; [|split]]].
  - intros n Hn. split; [by apply Bytes_nonneg|apply random.Read_length].
  - intros n Hn. unfold random.Bytes. destruct (Z.ltb_spec n 0); [done|lia].
  - destruct (Bytes_then_SetBytes random.HashLength s) as [Heq (b & s' & Hb & Hlen)].
    unfold random.Hash. rewrite Heq. split; [done|]. by exists b, s'.
  - destruct (Bytes_then_SetBytes random.AddressLength s)
      as [Heq (b & s' & Hb & Hlen)].
    unfold random.Address. rewrite Heq. split; [done|]. by exists b, s'.
  - unfold random.Uint8. pose proof (random.Intn_range s 256 ltac:(lia)) as Hr.
    destruct (random.Intn s 256) as [v s'] eqn:Hi. cbn [fst] in *.
    rewrite Z.mod_small by lia. split; [done|lia].
Qed.

(** X23: [Element] returns an element of a non-empty slice, the one at
    the index drawn, and panics on an empty slice, where [Intn] is
    called with 0. *)
Theorem Element_is_an_element {T} (slice : list T) s :
  (slice ≠ [] →
   ∃ x, random.Element slice s
        = Done (x, (random.Intn s (Z.of_nat (length slice))).2)
        ∧ index slice (random.Intn s (Z.of_nat (length slice))).1 = Some x
        ∧ x ∈ slice)
  ∧ random.Element (@nil T) s = Crashed invalid_argument_to_Intn.
Proof.
  split; [|done]. intros Hne. unfold random.Element.
  assert (Hpos : 0 < Z.of_nat (length slice)) by (destruct slice; [done|cbn; lia]).
  destruct (Z.leb_spec (Z.of_nat (length slice)) 0); [lia|].
  pose proof (random.Intn_range s _ Hpos) as Hr.
  destruct (random.Intn s (Z.of_nat (length slice))) as [i s'] eqn:Hi. cbn in *.
  destruct (index_Some slice i) as [x Hx]; [lia|]. rewrite Hx.
  exists x. split_and!; [done|done|].
  unfold index in Hx. destruct (i <? 0); [done|].
  by apply list_elem_of_lookup_2 in Hx.
Qed.
End random_properties.

Example random_Hash_length :
  ∃ b s', @random.Hash lcg 42 = Done (b, s') ∧ length b = 32%nat.
Proof. eexists _, _. split; vm_compute; reflexivity. Qed.

Example random_Element_of_three :
  ∃ x s', @random.Element lcg _ ["a"; "b"; "c"] 42 = Done (x, s')
          ∧ x ∈ ["a"; "b"; "c"].
Proof.
  eexists _, _. split; [vm_compute; reflexivity|].
  apply list_elem_of_In. vm_compute. auto.
Qed.

(** ** The pollers: failed reads *)

Section failed_reads.
Context `{!Externals}.

Lemma poll_step_failed_read st mv : best mv.2 = None → poll_step st mv = st.
Proof.
  intros Hb. unfold poll_step.
  destruct (pollers st !! mv.1) as [[|c prev]|] eqn:Hp; [done| |done].
  rewrite poll_tick_error by done. destruct st as [ps sh]. cbn in *.
  by rewrite list_insert_id.
Qed.

(** X3: ticks on which the read of the head block fails leave no trace:
    under every interleaving, the pollers, the registry and the channel
    end as they would if those ticks had never happened. *)
Theorem failed_reads_leave_no_trace sched st :
  poll_run sched st = poll_run (filter (λ mv, is_Some (best mv.2)) sched) st.
Proof.
  revert st. induction sched as [|mv sched IH]; intros st; [done|].
  rewrite poll_run_cons. destruct (decide (is_Some (best mv.2))) as [Hs|Hn].
  - rewrite filter_cons_True by done. by rewrite poll_run_cons.
  - rewrite filter_cons_False by done. rewrite poll_step_failed_read; [done|].
    destruct (best mv.2); [|done]. exfalso. apply Hn. by eexists.
Qed.
End failed_reads.

(** ** Fund: the workers run to their end *)

Section Fund_progress.
Context `{!Externals}.
Local Open Scope nat_scope.

Lemma step_send_accepted st f w :
  workers st !! f = Some w → w_pc w = AtSend →
  workers (step st (f, Succeeds)) !! f = Some (set_pc AtWait w).
Proof.
  intros Hw Hpc. rewrite (step_unfold _ _ _ _ Hw). cbn [workers].
  rewrite lookup_insert_eq. unfold worker_step. by rewrite Hpc.
Qed.

Lemma step_wait_accepted st f w :
  workers st !! f = Some w → w_pc w = AtWait →
  workers (step st (f, Succeeds)) !! f = Some (next_batch w).
Proof.
  intros Hw Hpc. rewrite (step_unfold _ _ _ _ Hw). cbn [workers].
  rewrite lookup_insert_eq. unfold worker_step. by rewrite Hpc.
Qed.

(** A worker at the head of its loop with at most [r] batches left has
    returned after [2 * r] answers, whatever they are, and without an
    error when they are all acceptances. *)
Lemma run_answers_return f r : ∀ (l : list reply) st w,
  workers st !! f = Some w →
  w_pc w = loop_head (w_clauses w) (w_i w) →
  length (w_clauses w) ≤ w_i w + 100 * r →
  2 * r ≤ length l →
  ∃ w', workers (run ((λ a, (f, a)) <$> l) st) !! f = Some w'
        ∧ returned w' = true
        ∧ (Forall (λ a, a = Succeeds) l → w_pc w' = ReturnedOk).
Proof.
  assert (Hdone : ∀ (l : list reply) st w,
    workers st !! f = Some w → w_pc w = ReturnedOk →
    ∃ w', workers (run ((λ a, (f, a)) <$> l) st) !! f = Some w'
          ∧ returned w' = true
          ∧ (Forall (λ a, a = Succeeds) l → w_pc w' = ReturnedOk)).
  { intros l st w Hw Hok. exists w.
    assert (returned w = true) by (unfold returned; by rewrite Hok).
    split; [by apply run_returned_stays|done]. }
  induction r as [|r IH]; intros l st w Hw Hpc Hlen Hl.
  { apply (Hdone l st w Hw). rewrite Hpc. unfold loop_head.
    destruct (Nat.ltb_spec (w_i w) (length (w_clauses w))); [lia|done]. }
  unfold loop_head in Hpc.
  destruct (Nat.ltb_spec (w_i w) (length (w_clauses w))) as [Hlt|Hge];
    [|by apply (Hdone l st w Hw)].
  destruct l as [|a [|b l]]; [cbn in Hl; lia..|].
  rewrite fmap_cons, run_cons. destruct a as [|e].
  2: { destruct (step_fails st f w e Hw) as (_ & _ & Hw').
       { unfold returned. by rewrite Hpc. }
       exists (set_pc ReturnedErr w). split; [by apply run_returned_stays|].
       split; [done|]. by intros [? _]%Forall_cons. }
  pose proof (step_send_accepted st f w Hw Hpc) as Hw1.
  rewrite fmap_cons, run_cons. destruct b as [|e].
  2: { destruct (step_fails _ f _ e Hw1) as (_ & _ & Hw'); [done|].
       exists (set_pc ReturnedErr (set_pc AtWait w)).
       split; [by apply run_returned_stays|].
       split; [done|]. by intros [_ [? _]%Forall_cons]%Forall_cons. }
  pose proof (step_wait_accepted _ f _ Hw1 eq_refl) as Hw2.
  destruct (IH l _ _ Hw2) as (w' & Hw' & Hr & Hall).
  - done.
  - unfold next_batch, set_pc. cbn [w_clauses w_i]. lia.
  - cbn [length] in Hl. lia.
  - exists w'. split; [done|]. split; [done|].
    intros [_ [_ ?]%Forall_cons]%Forall_cons. by apply Hall.
Qed.

Lemma own_moves_answers f sched :
  own_moves f sched = (λ a, (f, a)) <$> (own_moves f sched).*2.
Proof.
  unfold own_moves. induction sched as [|[g a] sched IH]; [done|].
  destruct (decide (g = f)) as [->|Hne].
  - rewrite filter_cons_True by done. cbn [fmap list_fmap snd]. by f_equal.
  - by rewrite filter_cons_False.
Qed.

(** The worker launched for funder [f] on [k] clauses has returned once
    [2 * ceil(k / 100)] answers were given to it, under every
    interleaving with the other workers. *)
Lemma run_launched_returns ws sched f w0 :
  spawned ws → ws !! f = Some w0 →
  2 * ceil_div_100 (length (w_clauses w0)) ≤ length (own_moves f sched) →
  ∃ w, workers (run sched (start_state ws)) !! f = Some w
       ∧ returned w = true
       ∧ (Forall (λ mv, mv.2 = Succeeds) (own_moves f sched) →
          w_pc w = ReturnedOk).
Proof.
  intros Hsp Hw0 Hlen. destruct (Hsp f w0 Hw0) as [Hi Hpc].
  destruct (run_own_moves sched (start_state ws) (start_state ws) f)
    as (Heq & _ & _); [done..|].
  destruct (run_answers_return f (ceil_div_100 (length (w_clauses w0)))
              (own_moves f sched).*2 (start_state ws) w0)
    as (w & Hw & Hr & Hok).
  - done.
  - by rewrite Hi.
  - rewrite Hi. pose proof (ceil_div_100_bounds (length (w_clauses w0))). lia.
  - by rewrite length_fmap.
  - rewrite <-own_moves_answers in Hw. exists w. rewrite Heq.
    split; [done|]. split; [done|]. intros Hall. apply Hok.
    by apply Forall_fmap.
Qed.

(** C3: the worker of a funder cuts its clause sequence into batches of
    100.  Under every interleaving and whatever the chain answers, the
    batches it has handed to [Send] are the first slices of the sequence
    cut every 100 clauses, and the confirmed ones are among them.  When
    the chain accepts every [Send] and [Wait] of the worker, then after
    [2 * ceil(k / 100)] answers, on a sequence of [k] clauses, the
    worker has left its loop without an error and has submitted and got
    confirmed exactly these batches: [ceil(k / 100)] in number, every
    one but the last of exactly 100 clauses, their concatenation in
    submission order being the clause sequence. *)
Theorem worker_partitions_clauses c clauses ws sched f w :
  launch c clauses = Ok ws →
  workers (run sched (start_state ws)) !! f = Some w →
  clauses !! f = Some (w_clauses w)
  ∧ submitted_by f (chain (run sched (start_state ws)))
    `prefix_of` batches (w_clauses w)
  ∧ confirmed_by f (chain (run sched (start_state ws)))
    `prefix_of` submitted_by f (chain (run sched (start_state ws)))
  ∧ (w_pc w = ReturnedOk →
     submitted_by f (chain (run sched (start_state ws)))
     = confirmed_by f (chain (run sched (start_state ws)))
     ∧ length (confirmed_by f (chain (run sched (start_state ws))))
       = ceil_div_100 (length (w_clauses w))
     ∧ (∀ j b,
          confirmed_by f (chain (run sched (start_state ws))) !! j = Some b →
          S j < length (confirmed_by f (chain (run sched (start_state ws)))) →
          length b = 100)
     ∧ concat (confirmed_by f (chain (run sched (start_state ws))))
       = w_clauses w)
  ∧ (Forall (λ mv, mv.2 = Succeeds) (own_moves f sched) →
     2 * ceil_div_100 (length (w_clauses w)) ≤ length (own_moves f sched) →
     w_pc w = ReturnedOk
     ∧ submitted_by f (chain (run sched (start_state ws))) = batches (w_clauses w)
     ∧ confirmed_by f (chain (run sched (start_state ws))) = batches (w_clauses w)
     ∧ length (batches (w_clauses w)) = ceil_div_100 (length (w_clauses w))
     ∧ (∀ j b, batches (w_clauses w) !! j = Some b →
               S j < length (batches (w_clauses w)) → length b = 100)
     ∧ concat (batches (w_clauses w)) = w_clauses w).
Proof.
  intros Hl Hw.
  destruct (worker_batches_safe c clauses ws sched f w Hl Hw)
    as (Hcl & Hsub & Hconf & Hok).
  split; [done|]. split; [done|]. split; [done|]. split.
  - intros Hpc. destruct (Hok Hpc) as [-> ->].
    split; [done|]. split; [apply length_batches|].
    split; [apply batches_full|apply concat_batches].
  - intros Hall Hlen. destruct (launch_spawned _ _ _ Hl) as [Hsp _].
    destruct (run_fixed _ _ _ _ Hw) as (w0 & Hw0 & Hc0 & _). cbn in Hw0.
    rewrite Hc0 in Hlen.
    destruct (run_launched_returns ws sched f w0 Hsp Hw0 Hlen)
      as (w' & Hw' & _ & Hpc).
    rewrite Hw in Hw'. injection Hw' as <-. specialize (Hpc Hall).
    destruct (Hok Hpc) as [Hs Hc].
    split; [done|]. split; [done|]. split; [done|].
    split; [apply length_batches|].
    split; [apply batches_full|apply concat_batches].
Qed.

(** X5: once the workers are launched, under every interleaving and
    whatever the chain answers, [Fund] is not left blocked: as soon as
    the worker of every funder, on its [k] clauses, has been given
    [2 * ceil(k / 100)] answers, every worker has returned and [Fund]
    returns the error slot; it returns [nil] when the chain has accepted
    everything. *)
Theorem Fund_returns_when_answered c start amount ws sched :
  Fund_prepare c start amount = Ok ws →
  (∀ f w0, ws !! f = Some w0 →
     2 * ceil_div_100 (length (w_clauses w0)) ≤ length (own_moves f sched)) →
  all_returned (run sched (start_state ws)) = true
  ∧ Fund c start amount sched
    = (Returns (clauseErr (run sched (start_state ws))),
       chain (run sched (start_state ws)))
  ∧ (Forall (λ mv, mv.2 = Succeeds) sched →
     Fund c start amount sched
     = (Returns None, chain (run sched (start_state ws)))).
Proof.
  intros Hp Hans. pose proof (Fund_prepare_spawned _ _ _ _ Hp) as Hsp.
  assert (Hret : ∀ f w, workers (run sched (start_state ws)) !! f = Some w →
            returned w = true
            ∧ (Forall (λ mv, mv.2 = Succeeds) sched → w_pc w = ReturnedOk)).
  { intros f w Hw.
    destruct (run_fixed _ _ _ _ Hw) as (w0 & Hw0 & _). cbn in Hw0.
    destruct (run_launched_returns ws sched f w0 Hsp Hw0 (Hans f w0 Hw0))
      as (w' & Hw' & Hr & Hok).
    rewrite Hw in Hw'. injection Hw' as <-. split; [done|].
    intros Hall. apply Hok. unfold own_moves.
    apply Forall_forall. intros mv [_ Hin]%list_elem_of_filter.
    by apply (proj1 (Forall_forall _ _) Hall). }
  assert (Hall : all_returned (run sched (start_state ws)) = true).
  { unfold all_returned. apply forallb_forall. intros [f w] Hin.
    apply list_elem_of_In, elem_of_map_to_list in Hin.
    by destruct (Hret f w Hin). }
  split; [done|]. unfold Fund. rewrite Hp, Hall. split; [done|].
  intros Hacc.
  destruct (clauseErr (run sched (start_state ws))) as [e|] eqn:He; [|done].
  exfalso. destruct (proj1 (run_error_iff sched ws Hsp)) as (f & w & Hw & Hpc).
  { by rewrite He. }
  destruct (Hret f w Hw) as [_ Hok]. rewrite (Hok Hacc) in Hpc. done.
Qed.
End Fund_progress.

Lemma worker_partitions_clauses_witness :
  confirmed_by 0 (chain (run (replicate 6 (0, Succeeds))
     (start_state {[ 0 := spawn {| Address := 4096 |} (payments 250) ]})))
  = batches (payments 250)
  ∧ length (batches (payments 250)) = 3%nat
  ∧ concat (batches (payments 250)) = payments 250.
Proof.
  pose proof (worker_partitions_clauses (solo 1) {[ 0 := payments 250 ]}
                {[ 0 := spawn {| Address := 4096 |} (payments 250) ]}
                (replicate 6 (0, Succeeds)) 0
                {| w_manager := {| Address := 4096 |}; w_clauses := payments 250;
                   w_i := 300; w_pc := ReturnedOk |}) as Hthm.
  destruct Hthm as (_ & _ & _ & _ & Hprog); [vm_compute; reflexivity..|].
  destruct Hprog as (_ & _ & Hconf & Hlen & _ & Hcat).
  - vm_compute. repeat constructor.
  - vm_compute. lia.
  - split; [exact Hconf|]. split; [exact Hlen | exact Hcat].
Defined.

Lemma Fund_returns_when_answered_witness :
  all_returned (run [(0, Succeeds); (1, Fails "rejected"); (0, Succeeds); (1, Succeeds)]
                  (start_state solo_workers)) = true
  ∧ @Fund go_libraries (solo 12) 10 "ff"
      [(0, Succeeds); (1, Fails "rejected"); (0, Succeeds); (1, Succeeds)]
    = (Returns (Some "rejected"),
       [Submitted 0 4096 (@transfer_clauses go_libraries (solo 12) "ff" 10);
        Confirmed 0 4096 (@transfer_clauses go_libraries (solo 12) "ff" 10)]).
Proof.
  destruct (@Fund_returns_when_answered go_libraries (solo 12) 10 "ff" solo_workers
              [(0, Succeeds); (1, Fails "rejected"); (0, Succeeds); (1, Succeeds)])
    as (Hall & HF & _).
  - vm_compute. reflexivity.
  - intros f w0 Hf. unfold solo_workers in Hf.
    destruct (decide (f = 0)) as [->|H0].
    { rewrite lookup_insert_eq in Hf. injection Hf as <-. vm_compute. lia. }
    rewrite lookup_insert_ne in Hf by done.
    destruct (decide (f = 1)) as [->|H1].
    { rewrite lookup_singleton_eq in Hf. injection Hf as <-. vm_compute. lia. }
    by rewrite lookup_singleton_ne in Hf.
  - split; [exact Hall|]. rewrite HF. vm_compute. reflexivity.
Defined.
